(** * Flexible movie-data loader: schema detection, column mapping and
      record normalisation (src/flexible_loader.py, class FlexibleDataLoader)

    The development embeds the decision logic of [FlexibleDataLoader]:
    the static registry, [_detect_source], [_get_column_mapping],
    [_fuzzy_match_all], [_apply_mapping], [_validate_and_clean] and the
    mapping selection of [load_and_map].

    Modelling conventions
    - Python [dict] objects whose iteration order is observed (the registry
      tables, the score table) are association lists in declaration order;
      dictionaries that are only looked up, tested for membership or
      emptiness (the resolved mapping, [df_cols_lower]) are [gmap]s.
    - Python sets of column names are [gset string].
    - A pandas [DataFrame] is a row count (the length of its index) and an
      ordered list of named columns; column labels may repeat, as in pandas.
    - Numbers are exact rationals ([Qc]); a missing value (NaN) is [CNull].
    - The pandas semantics is that of the 1.x/2.x series the code was written
      for: [Series.fillna(..., inplace=True)] on [df[col]] updates the frame
      and [Series.astype(str)] turns NaN into the text [nan].
    - Text is a string over the code points below 256. [str.strip] removes
      the white space Python knows among them; [str.lower] is modelled on
      the ASCII letters, the only ones the registry holds.
    - An [Int64] column holds whole numbers from -2^63 to 2^63 - 1.
    - Text parsing and printing of numbers belong to pandas/Python and are
      parameters of the normaliser section. *)

From Stdlib Require Import Ascii String QArith Qcanon.
From stdpp Require Import base gmap strings list numbers sorting pretty.

Open Scope string_scope.
Open Scope nat_scope.

(** ** Text helpers: [str.lower], [str.replace(c, '')], [str.strip] *)

Module Text.

(** [str.lower] restricted to the ASCII letters. *)
Definition lower_ascii (c : ascii) : ascii :=
  let n := nat_of_ascii c in
  if bool_decide (65 ≤ n ≤ 90)%nat then ascii_of_nat (n + 32) else c.

Fixpoint lower (s : string) : string :=
  match s with
  | EmptyString => EmptyString
  | String c r => String (lower_ascii c) (lower r)
  end.

(** [s.replace(c, '')] for a one-character pattern [c]. *)
Fixpoint remove_char (c : ascii) (s : string) : string :=
  match s with
  | EmptyString => EmptyString
  | String d r =>
      if bool_decide (d = c) then remove_char c r
      else String d (remove_char c r)
  end.

(** The characters [str.strip] removes, those for which [str.isspace]
    holds: tab to carriage return, the four separators, the space, next
    line (U+0085) and the no-break space (U+00A0). *)
Definition is_space (c : ascii) : bool :=
  let n := nat_of_ascii c in
  bool_decide (n = 32 ∨ 9 ≤ n ≤ 13 ∨ 28 ≤ n ≤ 31 ∨ n = 133 ∨ n = 160)%nat.

Fixpoint lstrip (s : string) : string :=
  match s with
  | EmptyString => EmptyString
  | String c r => if is_space c then lstrip r else s
  end.

Fixpoint rstrip (s : string) : string :=
  match s with
  | EmptyString => EmptyString
  | String c r =>
      match rstrip r with
      | EmptyString => if is_space c then EmptyString else String c EmptyString
      | r' => String c r'
      end
  end.

Definition strip (s : string) : string := rstrip (lstrip s).

End Text.

(** ** Schema registry *)

Inductive dtype := TStr | TInt | TFloat.

#[global] Instance dtype_eq_dec : EqDecision dtype.
Proof. solve_decision. Defined.

(** [STANDARD_SCHEMA], in declaration order. *)
Definition STANDARD_SCHEMA : list (string * dtype) :=
  [ ("movie_id", TStr); ("title", TStr); ("genres", TStr);
    ("release_year", TInt); ("runtime", TInt); ("rating", TFloat);
    ("vote_count", TInt); ("popularity", TFloat); ("overview", TStr) ].

Definition schema_keys : list string := STANDARD_SCHEMA.*1.

(** [SOURCE_MAPPINGS]: per source, the exact dictionary in declaration
    order. *)
Definition SOURCE_MAPPINGS : list (string * list (string * string)) :=
  [ ("tmdb",
      [ ("id", "movie_id"); ("title", "title"); ("genres", "genres");
        ("release_date", "release_year"); ("runtime", "runtime");
        ("vote_average", "rating"); ("vote_count", "vote_count");
        ("popularity", "popularity"); ("overview", "overview") ]);
    ("imdb",
      [ ("tconst", "movie_id"); ("primary_title", "title");
        ("original_title", "title"); ("genres", "genres");
        ("start_year", "release_year"); ("runtime_minutes", "runtime");
        ("average_rating", "rating"); ("num_votes", "vote_count");
        ("title_id", "movie_id") ]);
    ("movielens",
      [ ("movieid", "movie_id"); ("movie_id", "movie_id");
        ("title", "title"); ("genres", "genres"); ("rating", "rating");
        ("timestamp", "vote_count") ]);
    ("rotten_tomatoes",
      [ ("id", "movie_id"); ("name", "title"); ("title", "title");
        ("genre", "genres"); ("genres", "genres"); ("year", "release_year");
        ("rating", "rating"); ("audience_score", "rating");
        ("imdb_rating", "rating") ]);
    ("letterboxd",
      [ ("id", "movie_id"); ("name", "title"); ("year", "release_year");
        ("genre", "genres"); ("rating", "rating");
        ("rating_count", "vote_count"); ("description", "overview") ]);
    ("kaggle",
      [ ("movie_id", "movie_id"); ("film_name", "title");
        ("movie_name", "title"); ("name", "title"); ("genre", "genres");
        ("release_year", "release_year"); ("year", "release_year");
        ("rating", "rating"); ("votes", "vote_count");
        ("runtime", "runtime") ]) ].

(** [FUZZY_PATTERNS], in declaration order. *)
Definition FUZZY_PATTERNS : list (string * list string) :=
  [ ("movie_id", ["id"; "movie_id"; "tconst"; "imdb_id"; "film_id"]);
    ("title", ["title"; "name"; "film_name"; "movie_name"; "primary_title";
               "original_title"]);
    ("genres", ["genre"; "genres"; "genre_list"; "category"]);
    ("release_year", ["year"; "release_year"; "release_date"; "start_year";
                      "release_date_published"]);
    ("runtime", ["runtime"; "duration"; "length"; "running_time"]);
    ("rating", ["rating"; "score"; "imdb_rating"; "average_rating";
                "audience_score"; "vote_average"]);
    ("vote_count", ["votes"; "vote_count"; "num_votes"; "number_of_votes";
                    "rating_count"; "count"]);
    ("popularity", ["popularity"; "popular"; "score"]);
    ("overview", ["overview"; "description"; "synopsis"; "summary"; "plot"]) ].

(** The local table [source_signatures] of [_detect_source]. *)
Definition source_signatures : list (string * gset string) :=
  [ ("imdb", {[ "tconst"; "primary_title"; "start_year" ]});
    ("tmdb", {[ "id"; "vote_average"; "vote_count" ]});
    ("movielens", {[ "movieid"; "userid"; "timestamp" ]});
    ("rotten_tomatoes", {[ "audience_score"; "critics_score" ]});
    ("letterboxd", {[ "imdb_code"; "imdb_id" ]});
    ("kaggle", {[ "film_name"; "movie_name"; "name" ]}) ].

(** ** Source detector *)

Module Detector.

(** [{col.lower() for col in df.columns}] *)
Definition cols_lower_set (columns : list string) : gset string :=
  list_to_set (Text.lower <$> columns).

(** The [scores] dictionary, in insertion order. *)
Definition scores (columns : list string) : list (string * nat) :=
  (λ '(source, sig_cols), (source, size (sig_cols ∩ cols_lower_set columns)))
    <$> source_signatures.

(** Python's [max(iterable, key=...)]: the first element whose key is
    not exceeded by any other. *)
Fixpoint py_max_from {A} (key : A → nat) (best : A) (l : list A) : A :=
  match l with
  | [] => best
  | x :: r => py_max_from key (if bool_decide (key best < key x) then x else best) r
  end.

Definition py_max {A} (key : A → nat) (l : list A) : option A :=
  match l with
  | [] => None
  | x :: r => Some (py_max_from key x r)
  end.

(** [scores.get] on the association list (absent keys count as 0). *)
Fixpoint score_of (sc : list (string * nat)) (k : string) : nat :=
  match sc with
  | [] => 0
  | (k', n) :: r => if bool_decide (k' = k) then n else score_of r k
  end.

(** [_detect_source]; [max] of an empty table raises in Python, which
    cannot happen for the fixed non-empty signature table. *)
Definition detect_source (columns : list string) : string :=
  let sc := scores columns in
  match py_max (score_of sc) sc.*1 with
  | Some detected =>
      if bool_decide (0 < score_of sc detected) then detected else "kaggle"
  | None => "kaggle"
  end.

(** The known sources, in declaration order, and the score of one of
    them on the given columns. *)
Definition sources : list string := source_signatures.*1.

Definition score (columns : list string) (src : string) : nat :=
  score_of (scores columns) src.

End Detector.

(** ** Column mapper *)

Module Mapper.

(** [dict.get(key, default)] on a registry table. *)
Fixpoint assoc_get {V} (k : string) (d : list (string * V)) : option V :=
  match d with
  | [] => None
  | (k', v) :: r => if bool_decide (k' = k) then Some v else assoc_get k r
  end.

(** [{col.lower(): col for col in df.columns}]: a later column with the
    same lower-cased name overwrites an earlier one. *)
Definition cols_lower (columns : list string) : gmap string string :=
  foldl (λ m col, <[Text.lower col := col]> m) ∅ columns.

(** [std_col in mapping.values()] *)
Definition in_values (std_col : string) (mapping : gmap string string) : bool :=
  bool_decide (std_col ∈ (map_img mapping : gset string)).

(** [actual_col in mapping] *)
Definition in_keys (actual_col : string) (mapping : gmap string string) : bool :=
  bool_decide (is_Some (mapping !! actual_col)).

(** One iteration of the exact-match loop of [_get_column_mapping]. *)
Definition exact_step (df_cols_lower : gmap string string)
    (mapping : gmap string string) (entry : string * string)
    : gmap string string :=
  match df_cols_lower !! Text.lower entry.1 with
  | Some actual_col => <[actual_col := entry.2]> mapping
  | None => mapping
  end.

Definition exact_matches (df_cols_lower : gmap string string)
    (source_map : list (string * string)) : gmap string string :=
  foldl (exact_step df_cols_lower) ∅ source_map.

(** The inner [for pattern in patterns] loop, shared by
    [_get_column_mapping] and [_fuzzy_match_all]: the first pattern naming
    a column that is not yet a key of the mapping is recorded, and the loop
    breaks. *)
Fixpoint fuzzy_patterns (df_cols_lower : gmap string string)
    (std_col : string) (patterns : list string)
    (mapping : gmap string string) : gmap string string :=
  match patterns with
  | [] => mapping
  | pattern :: rest =>
      match df_cols_lower !! Text.lower pattern with
      | Some actual_col =>
          if in_keys actual_col mapping
          then fuzzy_patterns df_cols_lower std_col rest mapping
          else <[actual_col := std_col]> mapping
      | None => fuzzy_patterns df_cols_lower std_col rest mapping
      end
  end.

(** One iteration of the outer fuzzy loop of [_get_column_mapping]. *)
Definition fuzzy_step (df_cols_lower : gmap string string)
    (mapping : gmap string string) (entry : string * list string)
    : gmap string string :=
  if in_values entry.1 mapping then mapping
  else fuzzy_patterns df_cols_lower entry.1 entry.2 mapping.

(** One iteration of the outer loop of [_fuzzy_match_all] (no test on the
    values of the mapping). *)
Definition fuzzy_all_step (df_cols_lower : gmap string string)
    (mapping : gmap string string) (entry : string * list string)
    : gmap string string :=
  fuzzy_patterns df_cols_lower entry.1 entry.2 mapping.

(** [_fuzzy_match_all] *)
Definition fuzzy_match_all (columns : list string) : gmap string string :=
  foldl (fuzzy_all_step (cols_lower columns)) ∅ FUZZY_PATTERNS.

(** [_get_column_mapping] *)
Definition get_column_mapping (columns : list string) (source : string)
    : gmap string string :=
  let df_cols_lower := cols_lower columns in
  let source_map := default [] (assoc_get source SOURCE_MAPPINGS) in
  let mapping := exact_matches df_cols_lower source_map in
  let mapping := foldl (fuzzy_step df_cols_lower) mapping FUZZY_PATTERNS in
  if bool_decide (mapping = ∅) then fuzzy_match_all columns else mapping.

(** Which branch of [load_and_map] supplied the mapping (the two log
    lines "Using custom column mapping" / "Using mapping for source"). *)
Inductive mapping_origin :=
| UsingCustom
| UsingSource (source : string).

(** The source and mapping selection of [load_and_map] (lines 153-164).
    [if custom_mapping:] is Python truthiness: [None] and the empty
    dictionary both take the [else] branch. *)
Definition resolve (columns : list string) (source : option string)
    (custom_mapping : option (gmap string string))
    : gmap string string * mapping_origin :=
  let source :=
    match source with
    | None => Detector.detect_source columns
    | Some s => s
    end in
  match custom_mapping with
  | Some cm =>
      if bool_decide (cm ≠ ∅) then (cm, UsingCustom)
      else (get_column_mapping columns source, UsingSource source)
  | None => (get_column_mapping columns source, UsingSource source)
  end.

End Mapper.

(** ** Tables *)

(** A cell of a pandas column: a missing value (NaN), a number, or text. *)
Inductive cell :=
| CNull
| CNum (q : Qc)
| CStr (s : string).

#[global] Instance cell_eq_dec : EqDecision cell.
Proof. solve_decision. Defined.

(** A data frame: the length of its index and its labelled columns, in
    order. Labels may repeat. *)
Record DataFrame := mkDF {
  df_len : nat;
  df_cols : list (string * list cell)
}.

#[global] Instance DataFrame_eq_dec : EqDecision DataFrame.
Proof. solve_decision. Defined.

(** [df.columns] *)
Definition columns (df : DataFrame) : list string := (df_cols df).*1.

Module Frame.

(** [df[name]] when it is used as a Series: defined only if exactly one
    column carries the label (an absent label raises [KeyError]; a
    repeated label yields a DataFrame, on which the Series operations of
    [_validate_and_clean] raise). *)
Definition getitem (name : string) (df : DataFrame) : option (list cell) :=
  match filter (λ c, c.1 = name) (df_cols df) with
  | [c] => Some c.2
  | _ => None
  end.

(** [df[name] = values]: overwrite the column(s) carrying the label, or
    append a new column. *)
Definition setitem (name : string) (values : list cell) (df : DataFrame)
    : DataFrame :=
  if bool_decide (name ∈ columns df) then
    mkDF (df_len df)
         ((λ c, if bool_decide (c.1 = name) then (c.1, values) else c)
            <$> df_cols df)
  else mkDF (df_len df) (df_cols df ++ [(name, values)]).

(** [df.rename(columns=mapping)] *)
Definition rename (mapping : gmap string string) (df : DataFrame)
    : DataFrame :=
  mkDF (df_len df)
       ((λ c, (default c.1 (mapping !! c.1), c.2)) <$> df_cols df).

(** [df[names]] for a list of labels: for each label in turn, every
    column carrying it. *)
Definition select (names : list string) (df : DataFrame) : DataFrame :=
  mkDF (df_len df)
       (names ≫= λ k, filter (λ c, c.1 = k) (df_cols df)).

(** Keep the entries of [l] whose flag in [mask] is set. *)
Fixpoint filter_mask {A} (mask : list bool) (l : list A) : list A :=
  match mask, l with
  | b :: m, x :: r => if b then x :: filter_mask m r else filter_mask m r
  | _, _ => []
  end.

(** [~duplicated(keep='first')] over a list of row keys: a row is kept
    when its key was not seen on an earlier row. *)
Fixpoint keep_first_from {K} `{EqDecision K} (seen : list K) (keys : list K)
    : list bool :=
  match keys with
  | [] => []
  | k :: r =>
      if bool_decide (k ∈ seen) then false :: keep_first_from seen r
      else true :: keep_first_from (k :: seen) r
  end.

Definition keep_first {K} `{EqDecision K} (keys : list K) : list bool :=
  keep_first_from [] keys.

(** Row [i] of a list of columns (a cell beyond the end of a column reads
    as missing). *)
Definition row_at (cols : list (list cell)) (i : nat) : list cell :=
  (λ c, default CNull (c !! i)) <$> cols.

Definition rows_of (cols : list (list cell)) (n : nat)
    : list (list cell) :=
  row_at cols <$> seq 0 n.


(** The keys [duplicated(subset)] compares: for each row, its cells in
    every column whose label is in [subset], in column order. Missing
    values compare equal. *)
Definition row_keys (subset : list string) (df : DataFrame)
    : list (list cell) :=
  rows_of (filter (λ c, c.1 ∈ subset) (df_cols df)).*2 (df_len df).

(** [df.drop_duplicates(subset=subset, keep='first')] *)
Definition drop_duplicates (subset : list string) (df : DataFrame)
    : DataFrame :=
  let mask := keep_first (row_keys subset df) in
  mkDF (length (filter_mask mask (seq 0 (df_len df))))
       ((λ c, (c.1, filter_mask mask c.2)) <$> df_cols df).

(** [df'] differs from [df] at most in the cells of the column [name]. *)
Definition same_except (name : string) (df df' : DataFrame) : Prop :=
  df_len df' = df_len df
  ∧ columns df' = columns df
  ∧ ∀ n, n ≠ name → getitem n df' = getitem n df.

End Frame.

(** ** Record normaliser *)

Module Normalizer.

Import Frame.

(** [_apply_mapping] *)
Definition apply_mapping (df : DataFrame) (mapping : gmap string string)
    : DataFrame :=
  let df_renamed := rename mapping df in
  let existing_std_cols :=
    filter (λ col, col ∈ columns df_renamed) schema_keys in
  select existing_std_cols df_renamed.

(** The numeric values of a column, missing values skipped. *)
Definition nums (s : list cell) : list Qc :=
  omap (λ c, match c with CNum q => Some q | _ => None end) s.

(** [Series.median()]: the middle of the sorted non-missing values, the
    mean of the two middle ones for an even count, NaN ([None]) when there
    is none. *)
Definition median (s : list cell) : option Qc :=
  let v := merge_sort Qcle (nums s) in
  let n := length v in
  if bool_decide (n = 0) then None
  else if Nat.odd n then v !! (n / 2)
  else a ← v !! (n / 2 - 1); b ← v !! (n / 2); Some ((a + b) / 2)%Qc.

(** [Series.fillna(value)]; filling with NaN changes nothing. *)
Definition fillna (value : option Qc) (s : list cell) : list cell :=
  match value with
  | Some v => (λ c, match c with CNull => CNum v | _ => c end) <$> s
  | None => s
  end.

Definition is_integer (q : Qc) : bool :=
  bool_decide (Qden (this q) = 1%positive).

(** [f"MOV{i+1:05d}"] *)
Definition pad5 (digits : string) : string :=
  Nat.iter (5 - String.length digits) (String "0") digits.

Definition movie_id_token (i : nat) : string :=
  "MOV" +:+ pad5 (pretty (i + 1)%nat).

(** [[f"MOV{i+1:05d}" for i in range(n)]] *)
Definition movie_ids (n : nat) : list cell :=
  (λ i, CStr (movie_id_token i)) <$> seq 0 n.

(** The range of a 64-bit signed integer. *)
Definition in_int64 (q : Qc) : bool :=
  bool_decide (- 2 ^ 63 ≤ Qnum (this q) < 2 ^ 63)%Z.

(** A cell an [Int64] column can hold: a whole number in the 64-bit
    range, or [<NA>]. *)
Definition int_or_null (c : cell) : bool :=
  match c with CNum q => is_integer q && in_int64 q | _ => true end.

(** [pd.notna] *)
Definition notna (c : cell) : bool :=
  match c with CNull => false | _ => true end.

(** The lambda applied to the [genres] column after [astype(str)]; its
    argument is always text. *)
Definition genres_lambda (x : string) : string :=
  if notna (CStr x) then
    Text.strip
      (Text.remove_char "'"
         (Text.remove_char "]" (Text.remove_char "[" x)))
  else "Unknown".

(** The removal of exact (title, release_year) duplicates. *)
Definition dedup_step (df : DataFrame) : DataFrame :=
  if bool_decide ("title" ∈ columns df ∧ "release_year" ∈ columns df)
  then drop_duplicates ["title"; "release_year"] df
  else df.

(** [df['movie_id'] = [...]] when the label is absent. *)
Definition step_movie_id (df : DataFrame) : DataFrame :=
  if bool_decide ("movie_id" ∉ columns df) then
    setitem "movie_id" (movie_ids (df_len df)) df
  else df.

Section WithPandas.

(** Parsing of a text cell by [pd.to_numeric] and printing of a number
    by [astype(str)] are pandas' own. *)
Variable to_numeric_str : string → option Qc.
Variable str_of_num : Qc → string.

(** [pd.to_numeric(..., errors='coerce')] on one cell. *)
Definition to_numeric (c : cell) : cell :=
  match c with
  | CNull => CNull
  | CNum q => CNum q
  | CStr s => from_option CNum CNull (to_numeric_str s)
  end.

(** [Series.astype(str)] on one cell. *)
Definition astype_str (c : cell) : string :=
  match c with
  | CNull => "nan"
  | CNum q => str_of_num q
  | CStr s => s
  end.

(** [df[name] = pd.to_numeric(df[name], errors='coerce')] *)
Definition coerce_numeric (name : string) (df : DataFrame)
    : option DataFrame :=
  s ← getitem name df; Some (setitem name (to_numeric <$> s) df).

(** [df[name].fillna(value, inplace=True)] *)
Definition fillna_inplace (name : string) (value : option Qc)
    (df : DataFrame) : option DataFrame :=
  s ← getitem name df; Some (setitem name (fillna value s) df).

(** [df[name].median()] *)
Definition col_median (name : string) (df : DataFrame)
    : option (option Qc) :=
  s ← getitem name df; Some (median s).

(** [df[name] = df[name].astype('Int64')]: raises on a value that is
    not a whole number or does not fit 64 bits. *)
Definition astype_Int64 (name : string) (df : DataFrame)
    : option DataFrame :=
  s ← getitem name df;
  if forallb int_or_null s then Some (setitem name s df) else None.

Definition step_median (name : string) (df : DataFrame)
    : option DataFrame :=
  if bool_decide (name ∈ columns df) then
    df ← coerce_numeric name df;
    m ← col_median name df;
    fillna_inplace name m df
  else Some df.

Definition step_zero (name : string) (df : DataFrame)
    : option DataFrame :=
  if bool_decide (name ∈ columns df) then
    df ← coerce_numeric name df;
    fillna_inplace name (Some 0%Qc) df
  else Some df.

Definition step_release_year (df : DataFrame) : option DataFrame :=
  if bool_decide ("release_year" ∈ columns df) then
    df ← coerce_numeric "release_year" df;
    astype_Int64 "release_year" df
  else Some df.

Definition step_genres (df : DataFrame) : option DataFrame :=
  if bool_decide ("genres" ∈ columns df) then
    s ← getitem "genres" df;
    Some (setitem "genres"
            ((λ c, CStr (genres_lambda (astype_str c))) <$> s) df)
  else Some df.

(** [_validate_and_clean]; [None] stands for a raised exception. *)
Definition validate_and_clean (df : DataFrame) : option DataFrame :=
  let df := dedup_step df in
  df ← step_median "rating" df;
  df ← step_zero "vote_count" df;
  df ← step_median "runtime" df;
  df ← step_release_year df;
  df ← step_zero "popularity" df;
  step_genres (step_movie_id df).

(** [load_and_map] once the file has been read into [df]. *)
Definition load_and_map (df : DataFrame) (source : option string)
    (custom_mapping : option (gmap string string)) : option DataFrame :=
  let mapping := (Mapper.resolve (columns df) source custom_mapping).1 in
  validate_and_clean (apply_mapping df mapping).

End WithPandas.

End Normalizer.

(** ** A small instance of the pandas parameters, used to run the model *)

Module Sample.

Definition digit_val (c : ascii) : option nat :=
  let n := nat_of_ascii c in
  if bool_decide (48 ≤ n ≤ 57)%nat then Some (n - 48)%nat else None.

Fixpoint digits_val (acc : nat) (s : string) : option nat :=
  match s with
  | EmptyString => Some acc
  | String c r => d ← digit_val c; digits_val (10 * acc + d) r
  end.

(** Unsigned decimal integers parse; every other text is rejected. *)
Definition to_numeric_str (s : string) : option Qc :=
  match s with
  | EmptyString => None
  | _ => n ← digits_val 0 s; Some (Q2Qc (inject_Z (Z.of_nat n)))
  end.

(** Whole numbers print as their digits (others by their numerator and
    denominator). *)
Definition str_of_num (q : Qc) : string :=
  if Normalizer.is_integer q then pretty (Qnum (this q))
  else pretty (Qnum (this q)) +:+ "/" +:+ pretty (Zpos (Qden (this q))).

Definition num (z : Z) : cell := CNum (Q2Qc (inject_Z z)).

Definition validate_and_clean : DataFrame → option DataFrame :=
  Normalizer.validate_and_clean to_numeric_str str_of_num.

Definition load_and_map :
    DataFrame → option string → option (gmap string string)
    → option DataFrame :=
  Normalizer.load_and_map to_numeric_str str_of_num.

(** A table with missing and unparsable numeric cells. *)
Definition gaps : DataFrame :=
  mkDF 3 [ ("rating", [CStr "7"; CNull; num 9]);
           ("vote_count", [CNull; CStr "n/a"; CNull]);
           ("release_year", [CStr "1999"; CStr "unknown"; CNull]) ].

Definition gaps_clean : DataFrame :=
  mkDF 3 [ ("rating", [num 7; num 8; num 9]);
           ("vote_count", [num 0; num 0; num 0]);
           ("release_year", [num 1999; CNull; CNull]);
           ("movie_id", [CStr "MOV00001"; CStr "MOV00002"; CStr "MOV00003"]) ].

(** A table none of whose columns resolves. *)
Definition opaque_table : DataFrame :=
  mkDF 2 [ ("foo", [CStr "x"; CStr "y"]); ("bar", [num 1; num 2]) ].

(** A Rotten Tomatoes table with two rating columns. *)
Definition two_ratings : DataFrame :=
  mkDF 2 [ ("title", [CStr "Heat"; CStr "Ran"]);
           ("rating", [num 8; num 9]);
           ("audience_score", [num 83; num 91]) ].

(** A table in which one film is listed twice. *)
Definition heat_twice : DataFrame :=
  mkDF 3 [ ("title", [CStr "Heat"; CStr "Heat"; CStr "Ran"]);
           ("release_year", [num 1995; num 1995; num 1985]);
           ("rating", [num 8; num 6; num 9]) ].

(** A table whose titles are numbers and whose runtimes have a gap. *)
Definition numeric_titles : DataFrame :=
  mkDF 3 [ ("title", [num 1917; num 300; num 2012]);
           ("runtime", [num 119; num 116; CNull]) ].

End Sample.

(** ** The object store

    Data frames are Python objects handled by reference. The store maps
    references to frames; a pandas call either builds a new object
    ([rename], [df[cols]], [copy], [drop_duplicates]) or updates one in
    place (column assignment, [fillna(..., inplace=True)]). A computation
    returns [None] when an exception is raised; the store it leaves behind
    is kept. *)

Module Store.

Import Frame Normalizer.

Definition M (A : Type) : Type :=
  gmap nat DataFrame → option A * gmap nat DataFrame.

#[global] Instance M_ret : MRet M := λ A a h, (Some a, h).

#[global] Instance M_bind : MBind M := λ A B k m h,
  match m h with
  | (Some a, h') => k a h'
  | (None, h') => (None, h')
  end.

(** A new object holding [df]. *)
Definition alloc (df : DataFrame) : M nat := λ h,
  let r := fresh (dom h) in (Some r, <[r := df]> h).

(** The frame a reference denotes. *)
Definition read (r : nat) : M DataFrame := λ h, (h !! r, h).

(** An update of the object [r] in place. *)
Definition in_place (r : nat) (f : DataFrame → option DataFrame) : M unit :=
  λ h,
    match h !! r with
    | Some df =>
        match f df with
        | Some df' => (Some (), <[r := df']> h)
        | None => (None, h)
        end
    | None => (None, h)
    end.

(** [_apply_mapping] on a reference: [rename] returns a new frame, the
    selection of the standard columns another one, and [copy] a third. *)
Definition apply_mapping (r : nat) (mapping : gmap string string) : M nat :=
  df ← read r;
  df_renamed ← alloc (rename mapping df);
  renamed ← read df_renamed;
  let existing_std_cols :=
    filter (λ col, col ∈ columns renamed) schema_keys in
  selected ← alloc (select existing_std_cols renamed);
  sel ← read selected;
  alloc sel.

Section WithPandas.

Variable to_numeric_str : string → option Qc.
Variable str_of_num : Qc → string.

(** [_validate_and_clean] on a reference: the frame is copied first,
    [drop_duplicates] returns a new frame to which the local name is
    rebound, and every later statement updates that frame in place. *)
Definition validate_and_clean (r : nat) : M nat :=
  df0 ← read r;
  df ← alloc df0;
  cur ← read df;
  df ← (if bool_decide ("title" ∈ columns cur
                        ∧ "release_year" ∈ columns cur)
        then alloc (drop_duplicates ["title"; "release_year"] cur)
        else mret df);
  _ ← in_place df (step_median to_numeric_str "rating");
  _ ← in_place df (step_zero to_numeric_str "vote_count");
  _ ← in_place df (step_median to_numeric_str "runtime");
  _ ← in_place df (step_release_year to_numeric_str);
  _ ← in_place df (step_zero to_numeric_str "popularity");
  _ ← in_place df (λ d, Some (step_movie_id d));
  _ ← in_place df (step_genres str_of_num);
  mret df.

(** [load_and_map] from the point where the file has been read into
    the object [r]. *)
Definition load_and_map (r : nat) (source : option string)
    (custom_mapping : option (gmap string string)) : M nat :=
  df ← read r;
  let mapping := (Mapper.resolve (columns df) source custom_mapping).1 in
  df_mapped ← apply_mapping r mapping;
  validate_and_clean df_mapped.

End WithPandas.

(** Every object of [h] is in [h'] with the same content. *)
Definition unchanged (h h' : gmap nat DataFrame) : Prop :=
  ∀ r df, h !! r = Some df → h' !! r = Some df.

(** [Q] holds of the outcome of [m] run from the store [h]. *)
Definition post {A} (m : M A) (h : gmap nat DataFrame)
    (Q : option A → gmap nat DataFrame → Prop) : Prop :=
  Q (m h).1 (m h).2.

End Store.

(** ** Notions used by the specification *)

(** A cell is of a declared type: text for [str], a whole number for [int],
    any number for [float]; a missing value is of every type. *)
Definition has_dtype (t : dtype) (c : cell) : bool :=
  match c, t with
  | CNull, _ => true
  | CStr _, TStr => true
  | CNum q, TInt => Normalizer.is_integer q
  | CNum _, TFloat => true
  | _, _ => false
  end.

(** Every schema field present in the frame holds cells of its declared
    type. *)
Definition conforms_to_schema (df : DataFrame) : Prop :=
  ∀ name t s, (name, t) ∈ STANDARD_SCHEMA →
    Frame.getitem name df = Some s → Forall (λ c, has_dtype t c = true) s.

(** No two raw columns of the mapping share a destination. (That a raw
    column has one destination is built into the dictionary.) *)
Definition injective_mapping (mapping : gmap string string) : Prop :=
  ∀ raw1 raw2 dest,
    mapping !! raw1 = Some dest → mapping !! raw2 = Some dest → raw1 = raw2.

(** [DataFrame.empty]: no row or no column. *)
Definition empty_frame (df : DataFrame) : Prop :=
  df_len df = 0 ∨ df_cols df = [].

(** [SOURCE_MAPPINGS.get(source, {})]: the dictionary
    [_get_column_mapping] uses for a source. *)
Definition source_dictionary (source : string) : list (string * string) :=
  default [] (Mapper.assoc_get source SOURCE_MAPPINGS).

(** Every column has one cell per index entry. *)
Definition wf (df : DataFrame) : Prop :=
  Forall (λ c : string * list cell, length c.2 = df_len df) (df_cols df).

(** A column that holds only numbers, and one that holds nothing. *)
Definition all_numbers (s : list cell) : Prop :=
  Forall (λ c, ∃ q, c = CNum q) s.

Definition all_missing (s : list cell) : Prop :=
  Forall (λ c, c = CNull) s.

(** The labels [_validate_and_clean] reads as a Series. *)
Definition series_labels : list string :=
  ["rating"; "vote_count"; "runtime"; "release_year"; "popularity"; "genres"].

(** [set(df.columns) - set(mapping.keys())], the columns
    [show_mapping_report] lists as unmapped. *)
Definition unmapped (df : DataFrame) (mapping : gmap string string)
    : gset string :=
  list_to_set (columns df) ∖ dom mapping.

(** The character [c] occurs in the text [s]. *)
Definition occurs (c : ascii) (s : string) : Prop :=
  c ∈ list_ascii_of_string s.

(** The text starts with a character other than the digit zero. *)
Definition head_not_zero (s : string) : Prop :=
  match s with
  | String c _ => c ≠ "0"%char
  | EmptyString => False
  end.

(** * Properties *)

(** ** Source detector *)

Module DetectorFacts.

Import Detector.

Lemma py_max_from_first_max {A} (key : A → nat) (l : list A) (best : A) :
  ∃ j, (best :: l) !! j = Some (py_max_from key best l)
    ∧ (∀ x, x ∈ best :: l → key x ≤ key (py_max_from key best l))
    ∧ (∀ i x, i < j → (best :: l) !! i = Some x →
         key x < key (py_max_from key best l)).
Proof.
  revert best. induction l as [|x r IH]; intros best; simpl.
  - exists 0. split; [done|]. split.
    + intros y Hy. apply list_elem_of_singleton in Hy. by subst.
    + intros i y Hi. lia.
  - destruct (IH (if bool_decide (key best < key x) then x else best))
      as (j & Hj & Hmax & Hfirst).
    set (res := py_max_from key _ r) in *.
    case_bool_decide as Hlt.
    + exists (S j). split; [done|]. split.
      * intros y Hy. apply elem_of_cons in Hy as [->|Hy].
        -- pose proof (Hmax x ltac:(left)). lia.
        -- by apply Hmax.
      * intros i y Hi Hy. destruct i as [|i]; simpl in Hy.
        -- inversion Hy; subst. pose proof (Hmax x ltac:(left)). lia.
        -- apply (Hfirst i); [lia | done].
    + destruct j as [|j].
      * exists 0. simpl in Hj. split; [done|]. split.
        -- intros y Hy. apply elem_of_cons in Hy as [->|Hy].
           ++ by apply Hmax; left.
           ++ apply elem_of_cons in Hy as [->|Hy].
              ** pose proof (Hmax best ltac:(left)). lia.
              ** by apply Hmax; right.
        -- intros i y Hi. lia.
      * exists (S (S j)). simpl in Hj. split; [done|]. split.
        -- intros y Hy. apply elem_of_cons in Hy as [->|Hy].
           ++ by apply Hmax; left.
           ++ apply elem_of_cons in Hy as [->|Hy].
              ** pose proof (Hmax best ltac:(left)). lia.
              ** by apply Hmax; right.
        -- intros i y Hi Hy. destruct i as [|[|i]]; simpl in Hy.
           ++ inversion Hy; subst. apply (Hfirst 0); [lia | done].
           ++ inversion Hy; subst.
              pose proof (Hfirst 0 best ltac:(lia) eq_refl). lia.
           ++ apply (Hfirst (S i)); [lia | done].
Qed.

Lemma sources_NoDup : NoDup sources.
Proof. apply (bool_decide_unpack _). by vm_compute. Qed.

Lemma scores_keys columns : (scores columns).*1 = sources.
Proof. reflexivity. Qed.

Lemma score_is_intersection columns src sig :
  (src, sig) ∈ source_signatures →
  score columns src = size (sig ∩ cols_lower_set columns).
Proof.
  intros Hin. unfold source_signatures in Hin.
  repeat (apply elem_of_cons in Hin as [Heq|Hin];
          [inversion Heq; subst; reflexivity|]).
  by apply elem_of_nil in Hin.
Qed.

(** What [max(scores, key=scores.get)] returns. *)
Lemma detected_first_max columns :
  ∃ d j, py_max (score columns) sources = Some d
    ∧ sources !! j = Some d
    ∧ (∀ src, src ∈ sources → score columns src ≤ score columns d)
    ∧ (∀ i src, i < j → sources !! i = Some src →
         score columns src < score columns d).
Proof.
  unfold sources, source_signatures. simpl.
  destruct (py_max_from_first_max (score columns)
              ["tmdb"; "movielens"; "rotten_tomatoes"; "letterboxd"; "kaggle"]
              "imdb") as (j & Hj & Hmax & Hfirst).
  eexists _, j. split; [reflexivity|]. done.
Qed.

Lemma detect_source_unfold columns d :
  py_max (score columns) sources = Some d →
  detect_source columns =
    if bool_decide (0 < score columns d) then d else "kaggle".
Proof.
  intros Hd. unfold detect_source. cbv zeta. rewrite scores_keys.
  change (score_of (scores columns)) with (score columns). by rewrite Hd.
Qed.

(** C2. [_detect_source] scores every known source by the number of its
    diagnostic columns found among the lower-cased input columns and
    returns a source of maximal score: a source that is the only one with
    a diagnostic column present is returned; when some score is positive
    every source declared before the returned one scores strictly less
    (first-declared wins ties); when every score is zero the result is
    the default ['kaggle']. *)
Theorem detect_source_spec (columns : list string) :
  let d := detect_source columns in
  (∀ src sig, (src, sig) ∈ source_signatures →
     score columns src
     = size (sig ∩ (list_to_set (Text.lower <$> columns) : gset string)))
  ∧ d ∈ sources
  ∧ (∀ src, src ∈ sources → score columns src ≤ score columns d)
  ∧ (∀ src, src ∈ sources → 0 < score columns src →
       (∀ other, other ∈ sources → other ≠ src → score columns other = 0) →
       d = src)
  ∧ (0 < score columns d →
       ∀ i j src, sources !! i = Some src → sources !! j = Some d → i < j →
         score columns src < score columns d)
  ∧ ((∀ src, src ∈ sources → score columns src = 0) → d = "kaggle").
Proof.
  intros d.
  destruct (detected_first_max columns) as (m & j & Hm & Hj & Hmax & Hfirst).
  assert (Hd : d = if bool_decide (0 < score columns m) then m else "kaggle")
    by (by apply detect_source_unfold).
  assert (Hk : "kaggle" ∈ sources) by (apply (bool_decide_unpack _); by vm_compute).
  assert (Hmin : m ∈ sources) by (by eapply list_elem_of_lookup_2).
  split; [exact (score_is_intersection columns)|].
  clearbody d. subst d. case_bool_decide as Hpos.
  - split; [done|]. split; [done|]. split; [|split].
    + intros src Hsrc Hs Hothers.
      destruct (decide (m = src)) as [|Hne]; [done|].
      pose proof (Hothers m Hmin Hne). lia.
    + intros _ i j' src Hi Hj' Hlt.
      assert (j' = j) as -> by (eapply NoDup_lookup; eauto using sources_NoDup).
      by eapply Hfirst.
    + intros Hall. pose proof (Hall m Hmin). lia.
  - assert (Hzero : ∀ src, src ∈ sources → score columns src = 0).
    { intros src Hsrc. pose proof (Hmax src Hsrc). lia. }
    split; [done|]. split; [|split; [|split]].
    + intros src Hsrc. rewrite (Hzero src Hsrc). lia.
    + intros src Hsrc Hs. rewrite (Hzero src Hsrc) in Hs. lia.
    + intros Hs. rewrite (Hzero _ Hk) in Hs. lia.
    + done.
Qed.

(** The scenario of the specification: IMDb-style columns. *)
Example detect_imdb :
  detect_source
    ["tconst"; "primary_title"; "start_year"; "average_rating"; "num_votes"]
  = "imdb".
Proof. by vm_compute. Qed.

End DetectorFacts.

(** ** Column mapper *)

Module MapperFacts.

Import Mapper.

(** C3, as the code has it: a caller-supplied mapping that is not empty is
    returned as it is, whatever the columns and the source hint, through
    the branch that runs no inference; a caller-supplied mapping that is
    empty is treated as if none had been supplied. *)
Theorem resolve_custom_truthiness (columns : list string)
    (source : option string) (cm : gmap string string) :
  (cm ≠ ∅ → resolve columns source (Some cm) = (cm, UsingCustom))
  ∧ resolve columns source (Some ∅) = resolve columns source None.
Proof.
  split.
  - intros Hne. unfold resolve. by rewrite bool_decide_eq_true_2.
  - unfold resolve. by rewrite bool_decide_eq_false_2 by (by intros H).
Qed.

Lemma resolve_custom_truthiness_witness :
  resolve ["Film Name"; "Release Year"; "IMDB Score"; "Genre"] (Some "tmdb")
    (Some {[ "Film Name" := "title"; "Release Year" := "release_year";
             "IMDB Score" := "rating"; "Genre" := "genres" ]})
  = ({[ "Film Name" := "title"; "Release Year" := "release_year";
        "IMDB Score" := "rating"; "Genre" := "genres" ]}, UsingCustom)
  ∧ resolve ["Film Name"; "Release Year"; "IMDB Score"; "Genre"]
      (Some "tmdb") (Some ∅)
    = resolve ["Film Name"; "Release Year"; "IMDB Score"; "Genre"]
        (Some "tmdb") None.
Proof.
  destruct (resolve_custom_truthiness
              ["Film Name"; "Release Year"; "IMDB Score"; "Genre"]
              (Some "tmdb")
              {[ "Film Name" := "title"; "Release Year" := "release_year";
                 "IMDB Score" := "rating"; "Genre" := "genres" ]})
    as [Hcustom Hempty].
  split; [|exact Hempty].
  apply Hcustom. apply (bool_decide_unpack _). by vm_compute.
Defined.

(** C3 fails as stated: an explicit but empty mapping is not used; the
    inference steps run and their result is returned instead. *)
Lemma resolve_custom_empty_ignored :
  ¬ (∀ (columns : list string) (source : option string)
       (cm : gmap string string),
       (resolve columns source (Some cm)).1 = cm).
Proof.
  intros H. specialize (H ["title"] (Some "tmdb") ∅).
  apply (f_equal (λ m, m !! "title")) in H.
  vm_compute in H. discriminate H.
Qed.

(** C1 at its failing input: on the IMDb dictionary, two distinct raw
    columns are both mapped to [title]. *)
Lemma exact_step_maps_two_columns_to_title :
  let mapping := get_column_mapping ["primary_title"; "original_title"] "imdb" in
  mapping !! "primary_title" = Some "title"
  ∧ mapping !! "original_title" = Some "title".
Proof. by vm_compute. Qed.

(** Every column is reachable through its lower-cased name. *)
Lemma cols_lower_lookup (columns : list string) (c : string) :
  c ∈ columns → is_Some (cols_lower columns !! Text.lower c).
Proof.
  unfold cols_lower.
  assert (Hgen : ∀ (m : gmap string string),
             is_Some (m !! Text.lower c) ∨ c ∈ columns →
             is_Some (foldl (λ m col, <[Text.lower col := col]> m) m columns
                        !! Text.lower c)).
  { induction columns as [|x r IH]; intros m [Hm|Hc]; simpl.
    - done.
    - by apply elem_of_nil in Hc.
    - apply IH. left.
      destruct (decide (Text.lower x = Text.lower c)) as [->|Hne].
      + rewrite lookup_insert_eq. by eexists.
      + by rewrite lookup_insert_ne.
    - apply IH. apply elem_of_cons in Hc as [->|Hc]; [left | by right].
      rewrite lookup_insert_eq. by eexists. }
  intros Hc. apply Hgen. by right.
Qed.

Lemma fuzzy_patterns_nonempty dcl std_col patterns (m : gmap string string) :
  m ≠ ∅ → fuzzy_patterns dcl std_col patterns m ≠ ∅.
Proof.
  intros Hm. induction patterns as [|p rest IH]; simpl; [done|].
  destruct (dcl !! Text.lower p) as [a|]; [|done].
  destruct (in_keys a m); [done|]. apply insert_non_empty.
Qed.

Lemma fuzzy_patterns_empty dcl std_col patterns :
  fuzzy_patterns dcl std_col patterns ∅ = ∅ →
  ∀ p, p ∈ patterns → dcl !! Text.lower p = None.
Proof.
  induction patterns as [|p rest IH]; simpl; intros Hres q Hq.
  - by apply elem_of_nil in Hq.
  - destruct (dcl !! Text.lower p) as [a|] eqn:Hp.
    + unfold in_keys in Hres. rewrite lookup_empty in Hres.
      rewrite bool_decide_eq_false_2 in Hres by (by intros [? ?]).
      by apply insert_non_empty in Hres.
    + apply elem_of_cons in Hq as [->|Hq]; [done|]. by apply IH.
Qed.

Lemma fuzzy_all_empty dcl (entries : list (string * list string))
    (m : gmap string string) :
  foldl (fuzzy_all_step dcl) m entries = ∅ →
  m = ∅ ∧ ∀ e p, e ∈ entries → p ∈ e.2 → dcl !! Text.lower p = None.
Proof.
  revert m. induction entries as [|e rest IH]; simpl; intros m Hres.
  - split; [done|]. intros e p He. by apply elem_of_nil in He.
  - destruct (IH _ Hres) as [Hstep Hrest].
    assert (Hm : m = ∅).
    { destruct (decide (m = ∅)) as [|Hne]; [done|].
      by apply (fuzzy_patterns_nonempty dcl e.1 e.2) in Hne. }
    split; [done|]. subst m. intros e' p He' Hp.
    apply elem_of_cons in He' as [->|He']; [|by eapply Hrest].
    by eapply fuzzy_patterns_empty.
Qed.

Lemma get_column_mapping_empty columns source :
  get_column_mapping columns source = ∅ → fuzzy_match_all columns = ∅.
Proof.
  unfold get_column_mapping. cbv zeta. by case_bool_decide.
Qed.

(** Each canonical name is lower-case and is one of the fuzzy patterns. *)
Lemma schema_keys_are_patterns :
  Forall (λ c, Text.lower c = c
               ∧ Exists (λ e : string * list string, c ∈ e.2) FUZZY_PATTERNS)
         schema_keys.
Proof. apply (bool_decide_unpack _). by vm_compute. Qed.

(** When nothing resolves, no column carries a canonical name. *)
Lemma empty_mapping_no_canonical columns source c :
  get_column_mapping columns source = ∅ →
  c ∈ schema_keys → c ∉ columns.
Proof.
  intros Hm Hc Hin.
  apply get_column_mapping_empty in Hm. unfold fuzzy_match_all in Hm.
  apply fuzzy_all_empty in Hm as [_ Hnone].
  pose proof schema_keys_are_patterns as Hpat.
  rewrite Forall_forall in Hpat.
  destruct (Hpat c Hc) as [Hlow Hex].
  apply Exists_exists in Hex as (e & He & Hp).
  pose proof (Hnone e c He Hp) as Hlk. rewrite Hlow in Hlk.
  apply cols_lower_lookup in Hin. rewrite Hlow, Hlk in Hin.
  by destruct Hin.
Qed.

(** *** What the fuzzy passes guarantee *)

Lemma injective_mapping_empty : injective_mapping ∅.
Proof. intros raw1 raw2 dest H. by rewrite lookup_empty in H. Qed.

Lemma injective_mapping_insert (m : gmap string string) raw dest :
  injective_mapping m →
  (∀ k, m !! k ≠ Some dest) →
  injective_mapping (<[raw := dest]> m).
Proof.
  intros Hinj Hnew raw1 raw2 d H1 H2.
  destruct (decide (raw1 = raw)) as [->|Hne1];
    destruct (decide (raw2 = raw)) as [->|Hne2]; [done| | |].
  - rewrite lookup_insert_eq in H1. rewrite lookup_insert_ne in H2 by done.
    injection H1 as <-. by apply Hnew in H2.
  - rewrite lookup_insert_eq in H2. rewrite lookup_insert_ne in H1 by done.
    injection H2 as <-. by apply Hnew in H1.
  - rewrite lookup_insert_ne in H1, H2 by done. by eapply Hinj.
Qed.

(** The inner loop adds at most one entry, for a column not yet consumed. *)
Lemma fuzzy_patterns_cases dcl std_col patterns (m : gmap string string) :
  fuzzy_patterns dcl std_col patterns m = m
  ∨ ∃ raw, m !! raw = None
       ∧ fuzzy_patterns dcl std_col patterns m = <[raw := std_col]> m.
Proof.
  induction patterns as [|p rest IH]; simpl; [by left|].
  destruct (dcl !! Text.lower p) as [a|]; [|done].
  unfold in_keys. case_bool_decide as Hk; [done|].
  right. exists a. split; [|done].
  destruct (m !! a) eqn:E; [|done]. exfalso. apply Hk. by eexists.
Qed.

Lemma fuzzy_step_injective dcl (m : gmap string string) entry :
  injective_mapping m → injective_mapping (fuzzy_step dcl m entry).
Proof.
  intros Hinj. unfold fuzzy_step, in_values.
  case_bool_decide as Hv; [done|].
  destruct (fuzzy_patterns_cases dcl entry.1 entry.2 m) as [->|(raw & _ & ->)];
    [done|].
  apply injective_mapping_insert; [done|].
  intros k Hk. apply Hv. apply elem_of_map_img. by exists k.
Qed.

Lemma fuzzy_steps_injective dcl entries (m : gmap string string) :
  injective_mapping m → injective_mapping (foldl (fuzzy_step dcl) m entries).
Proof.
  revert m. induction entries as [|e rest IH]; intros m Hinj; simpl; [done|].
  by apply IH, fuzzy_step_injective.
Qed.

Lemma fuzzy_all_steps_injective dcl (entries : list (string * list string))
    (m : gmap string string) (done_cols : list string) :
  NoDup entries.*1 →
  (∀ e, e ∈ entries → e.1 ∉ done_cols) →
  (∀ k v, m !! k = Some v → v ∈ done_cols) →
  injective_mapping m →
  injective_mapping (foldl (fuzzy_all_step dcl) m entries).
Proof.
  revert m done_cols.
  induction entries as [|e rest IH]; intros m done_cols Hnd Hfresh Hval Hinj;
    simpl; [done|].
  apply NoDup_cons in Hnd as [He Hnd].
  apply (IH _ (e.1 :: done_cols)); [done| | |].
  - intros e' He'. apply not_elem_of_cons. split.
    + intros Heq. apply He. rewrite <- Heq. by apply list_elem_of_fmap_2.
    + apply Hfresh. by right.
  - unfold fuzzy_all_step.
    destruct (fuzzy_patterns_cases dcl e.1 e.2 m) as [->|(raw & _ & ->)].
    + intros k v Hk. right. by eapply Hval.
    + intros k v Hk. destruct (decide (raw = k)) as [->|Hne].
      * rewrite lookup_insert_eq in Hk. injection Hk as <-. left.
      * rewrite lookup_insert_ne in Hk by done. right. by eapply Hval.
  - unfold fuzzy_all_step.
    destruct (fuzzy_patterns_cases dcl e.1 e.2 m) as [->|(raw & _ & ->)];
      [done|].
    apply injective_mapping_insert; [done|].
    intros k Hk. apply Hval in Hk. apply (Hfresh e); [left | done].
Qed.

(** X1. The best-effort pass [_fuzzy_match_all] never gives two raw
    columns the same canonical field. *)
Theorem fuzzy_match_all_injective columns :
  injective_mapping (fuzzy_match_all columns).
Proof.
  unfold fuzzy_match_all.
  apply (fuzzy_all_steps_injective _ _ _ []).
  - apply (bool_decide_unpack _). by vm_compute.
  - intros e _. apply not_elem_of_nil.
  - intros k v Hk. by rewrite lookup_empty in Hk.
  - apply injective_mapping_empty.
Qed.

(** X2. The fuzzy pass and the best-effort pass of [_get_column_mapping]
    keep the mapping injective: two raw columns can share a destination
    only if the exact dictionary of the source already gave it to both. *)
Theorem get_column_mapping_injective columns source :
  injective_mapping
    (exact_matches (cols_lower columns)
       (default [] (assoc_get source SOURCE_MAPPINGS))) →
  injective_mapping (get_column_mapping columns source).
Proof.
  intros Hexact. unfold get_column_mapping. cbv zeta.
  case_bool_decide; [|by apply fuzzy_steps_injective].
  unfold fuzzy_match_all.
  apply (fuzzy_all_steps_injective _ _ _ []).
  - apply (bool_decide_unpack _). by vm_compute.
  - intros e _. apply not_elem_of_nil.
  - intros k v Hk. by rewrite lookup_empty in Hk.
  - apply injective_mapping_empty.
Qed.

Lemma NoDup_fmap_eq {A B} (f : A → B) (l : list A) x y :
  NoDup (f <$> l) → x ∈ l → y ∈ l → f x = f y → x = y.
Proof.
  induction l as [|z r IH]; csimpl; intros Hnd Hx Hy Hf.
  - by apply elem_of_nil in Hx.
  - apply NoDup_cons in Hnd as [Hz Hnd].
    apply elem_of_cons in Hx as [->|Hx]; apply elem_of_cons in Hy as [->|Hy].
    + done.
    + exfalso. apply Hz. rewrite Hf. by apply list_elem_of_fmap_2.
    + exfalso. apply Hz. rewrite <- Hf. by apply list_elem_of_fmap_2.
    + by apply IH.
Qed.

(** A test of injectivity that computes. *)
Lemma injective_mapping_NoDup (m : gmap string string) :
  NoDup (map_to_list m).*2 → injective_mapping m.
Proof.
  intros Hnd raw1 raw2 dest H1 H2.
  apply elem_of_map_to_list in H1, H2.
  by injection (NoDup_fmap_eq snd _ _ _ Hnd H1 H2 eq_refl).
Qed.

Lemma get_column_mapping_injective_witness :
  injective_mapping
    (get_column_mapping
       ["tconst"; "primary_title"; "start_year"; "average_rating"; "num_votes"]
       "imdb").
Proof.
  apply get_column_mapping_injective.
  apply injective_mapping_NoDup.
  apply (bool_decide_unpack _). by vm_compute.
Defined.

(** The scenario of the specification: the mapping resolved for IMDb-style
    columns. *)
Example imdb_scenario :
  get_column_mapping
    ["tconst"; "primary_title"; "start_year"; "average_rating"; "num_votes"]
    "imdb"
  = {[ "tconst" := "movie_id"; "primary_title" := "title";
       "start_year" := "release_year"; "average_rating" := "rating";
       "num_votes" := "vote_count" ]}.
Proof. apply (bool_decide_unpack _). by vm_compute. Qed.

End MapperFacts.

(** ** Frames: reading and writing columns *)

Module FrameFacts.

Import Frame.

Implicit Types (df : DataFrame) (name : string) (v s : list cell).

Lemma same_except_refl name df : same_except name df df.
Proof. by repeat split. Qed.

Lemma getitem_Some_elem name df s :
  getitem name df = Some s → name ∈ columns df.
Proof.
  unfold getitem.
  destruct (filter _ _) as [|c [|]] eqn:E; try done. intros _.
  assert (Hc : c ∈ filter (λ c : string * list cell, c.1 = name) (df_cols df))
    by (rewrite E; left).
  apply list_elem_of_filter in Hc as [<- Hc].
  unfold columns. by apply list_elem_of_fmap_2.
Qed.

Lemma filter_label_overwrite_ne name m v (cols : list (string * list cell)) :
  name ≠ m →
  filter (λ c : string * list cell, c.1 = name)
    ((λ c : string * list cell,
        if bool_decide (c.1 = m) then (c.1, v) else c) <$> cols)
  = filter (λ c : string * list cell, c.1 = name) cols.
Proof.
  intros Hne. induction cols as [|c r IH]; [done|].
  csimpl. rewrite !filter_cons, IH.
  case_bool_decide as Hc; simpl; [|done].
  by rewrite !decide_False by congruence.
Qed.

Lemma filter_label_overwrite_eq m v (cols : list (string * list cell)) :
  filter (λ c : string * list cell, c.1 = m)
    ((λ c : string * list cell,
        if bool_decide (c.1 = m) then (c.1, v) else c) <$> cols)
  = (λ c : string * list cell, (c.1, v))
      <$> filter (λ c : string * list cell, c.1 = m) cols.
Proof.
  induction cols as [|c r IH]; [done|].
  csimpl. rewrite !filter_cons, IH.
  case_bool_decide as Hc; simpl.
  - by rewrite !decide_True by done.
  - by rewrite !decide_False by done.
Qed.

Lemma labels_overwrite m v (cols : list (string * list cell)) :
  ((λ c : string * list cell,
      if bool_decide (c.1 = m) then (c.1, v) else c) <$> cols).*1
  = cols.*1.
Proof.
  induction cols as [|c r IH]; [done|].
  csimpl. rewrite IH. by case_bool_decide.
Qed.

Lemma df_len_setitem name v df : df_len (setitem name v df) = df_len df.
Proof. unfold setitem. by case_bool_decide. Qed.

Lemma columns_setitem_elem name v df :
  name ∈ columns df → columns (setitem name v df) = columns df.
Proof.
  intros Hin. unfold setitem. rewrite bool_decide_eq_true_2 by done.
  apply labels_overwrite.
Qed.

Lemma columns_setitem_fresh name v df :
  name ∉ columns df → columns (setitem name v df) = (columns df ++ [name])%list.
Proof.
  intros Hin. unfold setitem. rewrite bool_decide_eq_false_2 by done.
  unfold columns. simpl. by rewrite fmap_app.
Qed.

Lemma getitem_setitem_ne n name v df :
  n ≠ name → getitem n (setitem name v df) = getitem n df.
Proof.
  intros Hne. unfold setitem, getitem. case_bool_decide; simpl.
  - by rewrite filter_label_overwrite_ne.
  - rewrite filter_app, filter_cons_False, filter_nil, app_nil_r; [done|].
    simpl. congruence.
Qed.

Lemma getitem_setitem_eq name v df s :
  getitem name df = Some s → getitem name (setitem name v df) = Some v.
Proof.
  intros Hs. pose proof (getitem_Some_elem _ _ _ Hs) as Hin.
  unfold setitem, getitem in *. rewrite bool_decide_eq_true_2 by done.
  simpl. rewrite filter_label_overwrite_eq.
  by destruct (filter _ (df_cols df)) as [|c [|]].
Qed.

Lemma getitem_setitem_fresh name v df :
  name ∉ columns df → getitem name (setitem name v df) = Some v.
Proof.
  intros Hin. unfold setitem, getitem.
  rewrite bool_decide_eq_false_2 by done. simpl.
  rewrite filter_app, filter_cons_True, filter_nil by done.
  assert (Hnil : filter (λ c : string * list cell, c.1 = name) (df_cols df) = []).
  { destruct (filter _ (df_cols df)) as [|c r] eqn:E; [done|].
    assert (Hc : c ∈ filter (λ c : string * list cell, c.1 = name) (df_cols df))
      by (rewrite E; left).
    apply list_elem_of_filter in Hc as [<- Hc].
    exfalso. apply Hin. unfold columns. by apply list_elem_of_fmap_2. }
  by rewrite Hnil.
Qed.

Lemma same_except_getitem name df df' :
  same_except name df df' → ∀ n, n ≠ name → getitem n df' = getitem n df.
Proof. by intros (_ & _ & H). Qed.

Lemma same_except_columns name df df' :
  same_except name df df' → columns df' = columns df.
Proof. by intros (_ & H & _). Qed.

Lemma same_except_len name df df' :
  same_except name df df' → df_len df' = df_len df.
Proof. by intros (H & _ & _). Qed.

Lemma setitem_same_except name v df :
  name ∈ columns df → same_except name df (setitem name v df).
Proof.
  intros Hin. split; [apply df_len_setitem|]. split.
  - by apply columns_setitem_elem.
  - intros n Hn. by apply getitem_setitem_ne.
Qed.

End FrameFacts.

(** ** Keep-first de-duplication *)

Module DedupFacts.

Import Frame.

Section KeepFirst.

Context {K : Type} `{EqDecision K}.

Implicit Types (seen keys : list K) (k : K).

Lemma keep_first_from_length seen keys :
  length (keep_first_from seen keys) = length keys.
Proof.
  revert seen. induction keys as [|k r IH]; intros seen; [done|].
  simpl. case_bool_decide; simpl; by rewrite IH.
Qed.



(** The kept keys are pairwise distinct and new. *)
Lemma kept_keys_NoDup seen keys :
  NoDup (filter_mask (keep_first_from seen keys) keys)
  ∧ ∀ k, k ∈ filter_mask (keep_first_from seen keys) keys → k ∉ seen.
Proof.
  revert seen. induction keys as [|k0 r IH]; intros seen; simpl.
  - split; [constructor|]. intros k Hk. by apply elem_of_nil in Hk.
  - case_bool_decide as Hs; simpl; [apply IH|].
    destruct (IH (k0 :: seen)) as [Hnd Hnew]. split.
    + constructor; [|done]. intros Hk0. apply Hnew in Hk0.
      apply Hk0. left.
    + intros k Hk. apply elem_of_cons in Hk as [->|Hk]; [done|].
      apply Hnew in Hk. by apply not_elem_of_cons in Hk as [_ ?].
Qed.


End KeepFirst.

Lemma filter_mask_length {A B} (mask : list bool) (l : list A) (l' : list B) :
  length l = length l' →
  length (filter_mask mask l) = length (filter_mask mask l').
Proof.
  revert l l'. induction mask as [|b m IH]; intros [|x r] [|y r'] Hl;
    simpl in *; try done.
  destruct b; simpl; [f_equal|]; apply IH; lia.
Qed.

Lemma filter_mask_sublist {A} (mask : list bool) (l : list A) :
  sublist (filter_mask mask l) l.
Proof.
  revert l. induction mask as [|b m IH]; intros [|x r]; simpl;
    try apply sublist_nil_l.
  destruct b; [apply sublist_skip | apply sublist_cons]; apply IH.
Qed.

Lemma row_at_tail cols i :
  row_at (tail <$> cols) i = row_at cols (S i).
Proof.
  unfold row_at. rewrite <- list_fmap_compose. apply list_fmap_ext.
  intros j c _. simpl. by rewrite lookup_tail.
Qed.

Lemma rows_of_S cols n :
  rows_of cols (S n) = row_at cols 0 :: rows_of (tail <$> cols) n.
Proof.
  unfold rows_of. simpl. f_equal. rewrite <- fmap_S_seq.
  rewrite <- list_fmap_compose. apply list_fmap_ext.
  intros j i _. simpl. by rewrite row_at_tail.
Qed.

Lemma tail_filter_mask (b : bool) (m : list bool) (c : list cell) :
  filter_mask m (tail c)
  = if b then tail (filter_mask (b :: m) c) else filter_mask (b :: m) c.
Proof. destruct b, c as [|x r], m; done. Qed.

(** Filtering every column by a mask filters the rows by it. *)
Lemma rows_of_filter_mask (mask : list bool) cols n :
  length mask = n →
  rows_of (filter_mask mask <$> cols)
          (length (filter_mask mask (seq 0 n)))
  = filter_mask mask (rows_of cols n).
Proof.
  revert cols n. induction mask as [|b m IH]; intros cols n Hn.
  - simpl in *. subst n. done.
  - destruct n as [|n]; [done|]. simpl in Hn.
    rewrite (rows_of_S cols n).
    assert (Hlen : length (filter_mask m (seq 1 n))
                   = length (filter_mask m (seq 0 n)))
      by (apply filter_mask_length; by rewrite !length_seq).
    assert (Htl : filter_mask m <$> (tail <$> cols)
                  = (λ c, if b then tail (filter_mask (b :: m) c)
                          else filter_mask (b :: m) c) <$> cols).
    { rewrite <- list_fmap_compose. apply list_fmap_ext.
      intros j c _. simpl. apply tail_filter_mask. }
    destruct b; simpl.
    + rewrite Hlen, rows_of_S. f_equal.
      * unfold row_at. rewrite <- list_fmap_compose. apply list_fmap_ext.
        intros j c _. simpl. by destruct c.
      * rewrite <- (IH (tail <$> cols) n) by lia. f_equal.
        rewrite Htl. by rewrite <- list_fmap_compose.
    + rewrite Hlen. rewrite <- (IH (tail <$> cols) n) by lia. f_equal.
      by rewrite Htl.
Qed.

Lemma rows_of_length cols n : length (rows_of cols n) = n.
Proof. unfold rows_of. by rewrite length_fmap, length_seq. Qed.

Lemma filter_overwrite_data (subset : list string)
    (f : list cell → list cell) (cols : list (string * list cell)) :
  (filter (λ c : string * list cell, c.1 ∈ subset)
     ((λ c : string * list cell, (c.1, f c.2)) <$> cols)).*2
  = f <$> (filter (λ c : string * list cell, c.1 ∈ subset) cols).*2.
Proof.
  induction cols as [|c r IH]; [done|]. csimpl.
  rewrite !filter_cons. simpl. destruct (decide (c.1 ∈ subset)); csimpl;
    by rewrite IH.
Qed.

Section DropDuplicates.

Variable subset : list string.
Variable df : DataFrame.

Lemma mask_length :
  length (keep_first (row_keys subset df)) = df_len df.
Proof.
  unfold keep_first, row_keys.
  by rewrite keep_first_from_length, rows_of_length.
Qed.

Lemma drop_duplicates_columns :
  columns (drop_duplicates subset df) = columns df.
Proof.
  unfold drop_duplicates, columns. simpl.
  rewrite <- list_fmap_compose. by apply list_fmap_ext.
Qed.


Lemma drop_duplicates_row_keys :
  row_keys subset (drop_duplicates subset df)
  = filter_mask (keep_first (row_keys subset df)) (row_keys subset df).
Proof.
  set (mask := keep_first (row_keys subset df)).
  assert (Hm : length mask = df_len df) by apply mask_length.
  unfold row_keys, drop_duplicates. simpl. fold mask.
  rewrite <- rows_of_filter_mask by done. f_equal.
  apply filter_overwrite_data.
Qed.

Lemma drop_duplicates_NoDup :
  NoDup (row_keys subset (drop_duplicates subset df)).
Proof. rewrite drop_duplicates_row_keys. apply kept_keys_NoDup. Qed.

End DropDuplicates.

End DedupFacts.

(** ** Record normaliser *)

Module NormalizerFacts.

Import Frame FrameFacts Normalizer.

(** A number an [Int64] column accepts is whole and fits 64 bits. *)
Lemma int_or_null_CNum (q : Qc) :
  int_or_null (CNum q) = true ↔ is_integer q = true ∧ in_int64 q = true.
Proof. simpl. apply andb_true_iff. Qed.

Lemma int_or_null_whole (q : Qc) :
  int_or_null (CNum q) = true → is_integer q = true.
Proof. by intros [? _]%int_or_null_CNum. Qed.

Section WithPandas.

Variable to_numeric_str : string → option Qc.
Variable str_of_num : Qc → string.

Local Abbreviation to_numeric := (to_numeric to_numeric_str).
Local Abbreviation step_median := (step_median to_numeric_str).
Local Abbreviation step_zero := (step_zero to_numeric_str).
Local Abbreviation step_release_year := (step_release_year to_numeric_str).
Local Abbreviation step_genres := (step_genres str_of_num).
Local Abbreviation validate_and_clean :=
  (validate_and_clean to_numeric_str str_of_num).

Lemma step_median_spec name df df' :
  step_median name df = Some df' →
  same_except name df df'
  ∧ (name ∈ columns df →
       ∃ s, getitem name df = Some s
         ∧ getitem name df'
           = Some (fillna (median (to_numeric <$> s)) (to_numeric <$> s))).
Proof.
  unfold Normalizer.step_median. case_bool_decide as Hin.
  - unfold coerce_numeric, col_median, fillna_inplace.
    destruct (getitem name df) as [s|] eqn:Hs; simpl; [|done].
    rewrite (getitem_setitem_eq _ _ _ _ Hs). simpl.
    intros [= <-]. split.
    + destruct (setitem_same_except name (to_numeric <$> s) df Hin)
        as (Hl & Hc & Hg).
      split; [by rewrite df_len_setitem|]. split.
      * rewrite columns_setitem_elem; [done|]. by rewrite Hc.
      * intros n Hn. rewrite getitem_setitem_ne by done. by apply Hg.
    + intros _. exists s. split; [done|].
      eapply getitem_setitem_eq, getitem_setitem_eq, Hs.
  - intros [= <-]. split; [apply same_except_refl | done].
Qed.

Lemma step_zero_spec name df df' :
  step_zero name df = Some df' →
  same_except name df df'
  ∧ (name ∈ columns df →
       ∃ s, getitem name df = Some s
         ∧ getitem name df' = Some (fillna (Some 0%Qc) (to_numeric <$> s))).
Proof.
  unfold Normalizer.step_zero. case_bool_decide as Hin.
  - unfold coerce_numeric, fillna_inplace.
    destruct (getitem name df) as [s|] eqn:Hs; simpl; [|done].
    rewrite (getitem_setitem_eq _ _ _ _ Hs). simpl.
    intros [= <-]. split.
    + destruct (setitem_same_except name (to_numeric <$> s) df Hin)
        as (Hl & Hc & Hg).
      split; [by rewrite df_len_setitem|]. split.
      * rewrite columns_setitem_elem; [done|]. by rewrite Hc.
      * intros n Hn. rewrite getitem_setitem_ne by done. by apply Hg.
    + intros _. exists s. split; [done|].
      eapply getitem_setitem_eq, getitem_setitem_eq, Hs.
  - intros [= <-]. split; [apply same_except_refl | done].
Qed.

Lemma step_release_year_spec df df' :
  step_release_year df = Some df' →
  same_except "release_year" df df'
  ∧ ("release_year" ∈ columns df →
       ∃ s, getitem "release_year" df = Some s
         ∧ getitem "release_year" df' = Some (to_numeric <$> s)
         ∧ forallb int_or_null (to_numeric <$> s) = true).
Proof.
  unfold Normalizer.step_release_year. case_bool_decide as Hin.
  - unfold coerce_numeric, astype_Int64.
    destruct (getitem "release_year" df) as [s|] eqn:Hs; simpl; [|done].
    rewrite (getitem_setitem_eq _ _ _ _ Hs). simpl.
    destruct (forallb int_or_null (to_numeric <$> s)) eqn:Hint; [|done].
    intros [= <-]. split.
    + destruct (setitem_same_except "release_year" (to_numeric <$> s) df Hin)
        as (Hl & Hc & Hg).
      split; [by rewrite df_len_setitem|]. split.
      * rewrite columns_setitem_elem; [done|]. by rewrite Hc.
      * intros n Hn. rewrite getitem_setitem_ne by done. by apply Hg.
    + intros _. exists s. split; [done|]. split; [|done].
      eapply getitem_setitem_eq, getitem_setitem_eq, Hs.
  - intros [= <-]. split; [apply same_except_refl | done].
Qed.

Lemma step_genres_spec df df' :
  step_genres df = Some df' →
  same_except "genres" df df'
  ∧ ("genres" ∈ columns df →
       ∃ s, getitem "genres" df = Some s
         ∧ getitem "genres" df'
           = Some ((λ c, CStr (genres_lambda (astype_str str_of_num c)))
                     <$> s)).
Proof.
  unfold Normalizer.step_genres. case_bool_decide as Hin.
  - destruct (getitem "genres" df) as [s|] eqn:Hs; simpl; [|done].
    intros [= <-]. split; [by apply setitem_same_except|].
    intros _. exists s. split; [done|]. by eapply getitem_setitem_eq.
  - intros [= <-]. split; [apply same_except_refl | done].
Qed.

Lemma step_movie_id_spec df :
  df_len (step_movie_id df) = df_len df
  ∧ (∀ n, n ≠ "movie_id" →
       getitem n (step_movie_id df) = getitem n df)
  ∧ (∀ n, n ∈ columns (step_movie_id df) ↔ n ∈ columns df ∨ n = "movie_id")
  ∧ ("movie_id" ∉ columns df →
       columns (step_movie_id df) = (columns df ++ ["movie_id"])%list
       ∧ getitem "movie_id" (step_movie_id df)
         = Some (movie_ids (df_len df))).
Proof.
  unfold step_movie_id. case_bool_decide as Hin.
  - split; [apply df_len_setitem|]. split.
    { intros n Hn. by apply getitem_setitem_ne. }
    split.
    { intros n. rewrite columns_setitem_fresh by done.
      rewrite elem_of_app, list_elem_of_singleton. done. }
    intros _. split; [by apply columns_setitem_fresh|].
    by apply getitem_setitem_fresh.
  - split; [done|]. split; [done|]. split; [|done].
    intros n. split; [by left|]. intros [H| ->]; [done|].
    by destruct (decide ("movie_id" ∈ columns df)).
Qed.

(** The intermediate tables of [_validate_and_clean]. *)
Lemma validate_and_clean_stages df out :
  validate_and_clean df = Some out →
  ∃ d1 d2 d3 d4 d5,
    step_median "rating" (dedup_step df) = Some d1
    ∧ step_zero "vote_count" d1 = Some d2
    ∧ step_median "runtime" d2 = Some d3
    ∧ step_release_year d3 = Some d4
    ∧ step_zero "popularity" d4 = Some d5
    ∧ step_genres (step_movie_id d5) = Some out.
Proof.
  unfold Normalizer.validate_and_clean. cbv zeta.
  destruct (step_median "rating" (dedup_step df)) as [d1|] eqn:H1;
    simpl; [|done].
  destruct (step_zero "vote_count" d1) as [d2|] eqn:H2; simpl; [|done].
  destruct (step_median "runtime" d2) as [d3|] eqn:H3; simpl; [|done].
  destruct (step_release_year d3) as [d4|] eqn:H4; simpl; [|done].
  destruct (step_zero "popularity" d4) as [d5|] eqn:H5; simpl; [|done].
  intros Hout. by exists d1, d2, d3, d4, d5.
Qed.

Lemma to_numeric_cases c :
  to_numeric c = CNull ∨ ∃ q, to_numeric c = CNum q.
Proof.
  destruct c as [|q|t]; simpl; [by left | by right; exists q |].
  destruct (to_numeric_str t) as [q|]; simpl; [by right; exists q | by left].
Qed.

(** Coercion followed by [fillna], cell by cell. *)
Lemma fillna_to_numeric (m : option Qc) (s : list cell) :
  fillna m (to_numeric <$> s)
  = (λ c, match to_numeric c with
          | CNum q => CNum q
          | _ => from_option CNum CNull m
          end) <$> s.
Proof.
  destruct m as [v|]; simpl.
  - rewrite <- list_fmap_compose. apply list_fmap_ext. intros i c _. simpl.
    by destruct (to_numeric_cases c) as [->|[q ->]].
  - rewrite <- (list_fmap_id (to_numeric <$> s)) at 1.
    rewrite <- list_fmap_compose. apply list_fmap_ext. intros i c _. simpl.
    by destruct (to_numeric_cases c) as [->|[q ->]].
Qed.

(** Row count and labels of the normalised table. *)
Lemma validate_and_clean_shape df out :
  validate_and_clean df = Some out →
  df_len out = df_len (dedup_step df)
  ∧ (∀ n, n ∈ columns out ↔ n ∈ columns (dedup_step df) ∨ n = "movie_id").
Proof.
  intros Hv.
  destruct (validate_and_clean_stages _ _ Hv)
    as (d1 & d2 & d3 & d4 & d5 & H1 & H2 & H3 & H4 & H5 & H6).
  destruct (step_median_spec _ _ _ H1) as [E1 _].
  destruct (step_zero_spec _ _ _ H2) as [E2 _].
  destruct (step_median_spec _ _ _ H3) as [E3 _].
  destruct (step_release_year_spec _ _ H4) as [E4 _].
  destruct (step_zero_spec _ _ _ H5) as [E5 _].
  destruct (step_movie_id_spec d5) as (L6 & _ & C6 & _).
  destruct (step_genres_spec _ _ H6) as [E7 _].
  split.
  - rewrite (same_except_len _ _ _ E7), L6, (same_except_len _ _ _ E5),
      (same_except_len _ _ _ E4), (same_except_len _ _ _ E3),
      (same_except_len _ _ _ E2), (same_except_len _ _ _ E1). done.
  - intros n. rewrite (same_except_columns _ _ _ E7), C6,
      (same_except_columns _ _ _ E5), (same_except_columns _ _ _ E4),
      (same_except_columns _ _ _ E3), (same_except_columns _ _ _ E2),
      (same_except_columns _ _ _ E1). done.
Qed.

(** C4. In a normalised table, [rating] and [runtime] hold the parsed
    value of each cell and, where the cell is missing or does not parse,
    the median of the parsed values of that column (of the table after
    de-duplication); [vote_count] and [popularity] hold the parsed value
    or zero, so a [vote_count] column with no parsable cell becomes all
    zero; [release_year] holds the parsed value or stays missing, and is
    a whole number when present. *)
Theorem imputation_policy df out :
  validate_and_clean df = Some out →
  (∀ name, name ∈ ["rating"; "runtime"] → name ∈ columns out →
     ∃ s, getitem name (dedup_step df) = Some s
       ∧ getitem name out
         = Some ((λ c, match to_numeric c with
                       | CNum q => CNum q
                       | _ => from_option CNum CNull
                                (median (to_numeric <$> s))
                       end) <$> s))
  ∧ (∀ name, name ∈ ["vote_count"; "popularity"] → name ∈ columns out →
       ∃ s, getitem name (dedup_step df) = Some s
         ∧ getitem name out
           = Some ((λ c, match to_numeric c with
                         | CNum q => CNum q
                         | _ => CNum 0%Qc
                         end) <$> s)
         ∧ ((∀ c, c ∈ s → to_numeric c = CNull) →
              getitem name out = Some (replicate (length s) (CNum 0%Qc))))
  ∧ ("release_year" ∈ columns out →
       ∃ s, getitem "release_year" (dedup_step df) = Some s
         ∧ getitem "release_year" out = Some (to_numeric <$> s)
         ∧ (∀ c, c ∈ s →
              to_numeric c = CNull
              ∨ ∃ q, to_numeric c = CNum q ∧ is_integer q = true)).
Proof.
  intros Hv.
  destruct (validate_and_clean_shape _ _ Hv) as [_ Hcols].
  destruct (validate_and_clean_stages _ _ Hv)
    as (d1 & d2 & d3 & d4 & d5 & H1 & H2 & H3 & H4 & H5 & H6).
  destruct (step_median_spec _ _ _ H1) as [E1 S1].
  destruct (step_zero_spec _ _ _ H2) as [E2 S2].
  destruct (step_median_spec _ _ _ H3) as [E3 S3].
  destruct (step_release_year_spec _ _ H4) as [E4 S4].
  destruct (step_zero_spec _ _ _ H5) as [E5 S5].
  destruct (step_movie_id_spec d5) as (L6 & G6 & C6 & _).
  destruct (step_genres_spec _ _ H6) as [E7 _].
  pose proof (same_except_getitem _ _ _ E1) as G1.
  pose proof (same_except_getitem _ _ _ E2) as G2.
  pose proof (same_except_getitem _ _ _ E3) as G3.
  pose proof (same_except_getitem _ _ _ E4) as G4.
  pose proof (same_except_getitem _ _ _ E5) as G5.
  pose proof (same_except_getitem _ _ _ E7) as G7.
  pose proof (same_except_columns _ _ _ E1) as K1.
  pose proof (same_except_columns _ _ _ E2) as K2.
  pose proof (same_except_columns _ _ _ E3) as K3.
  pose proof (same_except_columns _ _ _ E4) as K4.
  assert (Hin : ∀ n, n ≠ "movie_id" → n ∈ columns out →
                     n ∈ columns (dedup_step df)).
  { intros n Hn Ho. apply Hcols in Ho.
    destruct Ho as [Ho|Ho]; [exact Ho | contradiction]. }
  split; [|split].
  - intros name Hname Ho.
    apply elem_of_cons in Hname as [->|Hname];
      [|apply list_elem_of_singleton in Hname as ->].
    + destruct (S1 (Hin "rating" ltac:(done) Ho)) as (s & Hs & Hs1).
      exists s. split; [done|].
      rewrite G7, G6, G5, G4, G3, G2, Hs1 by done.
      by rewrite fillna_to_numeric.
    + assert (Hd2 : "runtime" ∈ columns d2)
        by (rewrite K2, K1; by apply Hin).
      destruct (S3 Hd2) as (s & Hs & Hs1).
      rewrite G2, G1 in Hs by done.
      exists s. split; [done|].
      rewrite G7, G6, G5, G4, Hs1 by done.
      by rewrite fillna_to_numeric.
  - intros name Hname Ho.
    apply elem_of_cons in Hname as [->|Hname];
      [|apply list_elem_of_singleton in Hname as ->].
    + assert (Hd1 : "vote_count" ∈ columns d1)
        by (rewrite K1; by apply Hin).
      destruct (S2 Hd1) as (s & Hs & Hs1).
      rewrite G1 in Hs by done.
      assert (Hout : getitem "vote_count" out
                     = Some ((λ c, match to_numeric c with
                                   | CNum q => CNum q
                                   | _ => CNum 0%Qc
                                   end) <$> s)).
      { rewrite G7, G6, G5, G4, G3, Hs1 by done.
        by rewrite fillna_to_numeric. }
      exists s. split; [done|]. split; [done|].
      intros Hnull. rewrite Hout. f_equal.
      clear -Hnull. induction s as [|c r IH]; [done|]. csimpl.
      rewrite (Hnull c) by left. f_equal. apply IH.
      intros c' Hc'. apply Hnull. by right.
    + assert (Hd4 : "popularity" ∈ columns d4)
        by (rewrite K4, K3, K2, K1; by apply Hin).
      destruct (S5 Hd4) as (s & Hs & Hs1).
      rewrite G4, G3, G2, G1 in Hs by done.
      assert (Hout : getitem "popularity" out
                     = Some ((λ c, match to_numeric c with
                                   | CNum q => CNum q
                                   | _ => CNum 0%Qc
                                   end) <$> s)).
      { rewrite G7, G6, Hs1 by done.
        by rewrite fillna_to_numeric. }
      exists s. split; [done|]. split; [done|].
      intros Hnull. rewrite Hout. f_equal.
      clear -Hnull. induction s as [|c r IH]; [done|]. csimpl.
      rewrite (Hnull c) by left. f_equal. apply IH.
      intros c' Hc'. apply Hnull. by right.
  - intros Ho.
    assert (Hd3 : "release_year" ∈ columns d3)
      by (rewrite K3, K2, K1; by apply Hin).
    destruct (S4 Hd3) as (s & Hs & Hs1 & Hint).
    rewrite G3, G2, G1 in Hs by done.
    exists s. split; [done|]. split.
    + by rewrite G7, G6, G5, Hs1 by done.
    + intros c Hc.
      destruct (to_numeric_cases c) as [->|[q Hq]]; [by left|].
      right. exists q. split; [done|].
      rewrite forallb_forall in Hint.
      assert (Hc' : to_numeric c ∈ to_numeric <$> s)
        by (by apply list_elem_of_fmap_2).
      apply list_elem_of_In, Hint in Hc'. rewrite Hq in Hc'.
      by apply int_or_null_whole.
Qed.


Lemma dedup_step_columns df : columns (dedup_step df) = columns df.
Proof.
  unfold dedup_step. case_bool_decide; [|done].
  apply DedupFacts.drop_duplicates_columns.
Qed.

Lemma select_columns names df c :
  c ∈ columns (select names df) → c ∈ names ∧ c ∈ columns df.
Proof.
  unfold columns, select. simpl. intros Hc.
  apply list_elem_of_fmap in Hc as (col & -> & Hcol).
  apply list_elem_of_bind in Hcol as (k & Hcol & Hk).
  apply list_elem_of_filter in Hcol as [<- Hcol].
  split; [done|]. by apply list_elem_of_fmap_2.
Qed.

Lemma apply_mapping_columns df mapping c :
  c ∈ columns (apply_mapping df mapping) → c ∈ schema_keys.
Proof.
  unfold apply_mapping. cbv zeta. intros Hc.
  apply select_columns in Hc as [Hc _].
  by apply list_elem_of_filter in Hc as [_ ?].
Qed.

(** C10. Whatever the table and the mapping, the labels of the
    projected table and of the normalised table are canonical field
    names; a destination of the mapping that is not canonical labels no
    output column. The same holds for [load_and_map], custom mapping
    included. *)
Theorem output_columns_canonical df (mapping : gmap string string) :
  (∀ c, c ∈ columns (apply_mapping df mapping) → c ∈ schema_keys)
  ∧ (∀ out, validate_and_clean (apply_mapping df mapping) = Some out →
       ∀ c, c ∈ columns out → c ∈ schema_keys)
  ∧ (∀ raw dest, mapping !! raw = Some dest → dest ∉ schema_keys →
       (dest ∉ columns (apply_mapping df mapping))
       ∧ (∀ out, validate_and_clean (apply_mapping df mapping) = Some out →
            dest ∉ columns out))
  ∧ (∀ source custom out,
       load_and_map to_numeric_str str_of_num df source custom = Some out →
       ∀ c, c ∈ columns out → c ∈ schema_keys).
Proof.
  assert (Hval : ∀ m out,
             validate_and_clean (apply_mapping df m) = Some out →
             ∀ c, c ∈ columns out → c ∈ schema_keys).
  { intros m out Hv c Hc.
    destruct (validate_and_clean_shape _ _ Hv) as [_ Hcols].
    apply Hcols in Hc as [Hc| ->].
    - rewrite dedup_step_columns in Hc. by eapply apply_mapping_columns.
    - apply (bool_decide_unpack _). by vm_compute. }
  split; [apply apply_mapping_columns|]. split; [apply Hval|]. split.
  - intros raw dest _ Hdest. split.
    + intros Hc. by apply Hdest, (apply_mapping_columns df mapping).
    + intros out Hv Hc. by apply Hdest, (Hval mapping out Hv).
  - intros source custom out Hv. by eapply Hval.
Qed.

Lemma rename_empty df : rename ∅ df = df.
Proof.
  destruct df as [n cols]. unfold rename. simpl. f_equal.
  rewrite <- (list_fmap_id cols) at 2. apply list_fmap_ext.
  intros i [name data] _. simpl. by rewrite lookup_empty.
Qed.

Lemma apply_mapping_no_canonical df :
  (∀ c, c ∈ schema_keys → c ∉ columns df) →
  apply_mapping df ∅ = mkDF (df_len df) [].
Proof.
  intros Hnone. unfold apply_mapping. cbv zeta. rewrite rename_empty.
  assert (Hf : filter (λ col, col ∈ columns df) schema_keys = []).
  { destruct (filter _ schema_keys) as [|c r] eqn:E; [done|].
    assert (Hc : c ∈ filter (λ col, col ∈ columns df) schema_keys)
      by (rewrite E; left).
    apply list_elem_of_filter in Hc as [Hin Hc]. by apply Hnone in Hc. }
  by rewrite Hf.
Qed.

(** C8, as the code has it: when no field resolves, normalising under
    the empty mapping raises nothing and yields a table without any
    resolved field, whose only column is the synthesised [movie_id],
    one token per raw row. *)
Theorem empty_mapping_yields_ids_only df source :
  Mapper.get_column_mapping (columns df) source = ∅ →
  apply_mapping df ∅ = mkDF (df_len df) []
  ∧ validate_and_clean (apply_mapping df ∅)
    = Some (mkDF (df_len df) [("movie_id", movie_ids (df_len df))]).
Proof.
  intros Hm.
  assert (Hp : apply_mapping df ∅ = mkDF (df_len df) []).
  { apply apply_mapping_no_canonical. intros c Hc.
    by eapply MapperFacts.empty_mapping_no_canonical. }
  split; [done|]. by rewrite Hp.
Qed.

(** The [else 'Unknown'] branch of the genres lambda is never taken: its
    argument is text, for which [pd.notna] holds. *)
Lemma genres_lambda_strips (x : string) :
  genres_lambda x
  = Text.strip
      (Text.remove_char "'" (Text.remove_char "]" (Text.remove_char "[" x))).
Proof. reflexivity. Qed.

(** C7 at its failing input: the list punctuation of a genres cell is
    stripped, but a missing genres cell becomes the text [nan], not
    [Unknown]. *)
Lemma missing_genres_become_nan :
  genres_lambda (astype_str str_of_num CNull) = "nan"
  ∧ validate_and_clean
      (mkDF 2 [("genres", [CStr "['Action', 'Drama']"; CNull])])
    = Some (mkDF 2 [ ("genres", [CStr "Action, Drama"; CStr "nan"]);
                     ("movie_id", [CStr "MOV00001"; CStr "MOV00002"]) ]).
Proof. split; reflexivity. Qed.

End WithPandas.

Lemma imputation_policy_witness :
  Sample.validate_and_clean Sample.gaps = Some Sample.gaps_clean
  ∧ ∃ s, getitem "rating" (dedup_step Sample.gaps) = Some s
      ∧ getitem "rating" Sample.gaps_clean
        = Some ((λ c, match to_numeric Sample.to_numeric_str c with
                      | CNum q => CNum q
                      | _ => from_option CNum CNull
                               (median (to_numeric Sample.to_numeric_str <$> s))
                      end) <$> s).
Proof.
  assert (H : Sample.validate_and_clean Sample.gaps = Some Sample.gaps_clean)
    by (apply (bool_decide_unpack _); by vm_compute).
  split; [exact H|].
  apply (imputation_policy Sample.to_numeric_str Sample.str_of_num
           Sample.gaps Sample.gaps_clean H).
  - left.
  - apply (bool_decide_unpack _). by vm_compute.
Defined.

Lemma empty_mapping_yields_ids_only_witness :
  Mapper.get_column_mapping (columns Sample.opaque_table) "kaggle" = ∅
  ∧ Sample.validate_and_clean (apply_mapping Sample.opaque_table ∅)
    = Some (mkDF 2 [("movie_id", [CStr "MOV00001"; CStr "MOV00002"])]).
Proof.
  assert (H : Mapper.get_column_mapping (columns Sample.opaque_table) "kaggle"
              = ∅)
    by (apply (bool_decide_unpack _); by vm_compute).
  split; [exact H|].
  apply (empty_mapping_yields_ids_only Sample.to_numeric_str
           Sample.str_of_num Sample.opaque_table "kaggle" H).
Defined.

(** C8 fails as stated: with no field resolved the normalised table is
    not empty; it has one synthesised identifier per raw row. *)
Lemma empty_mapping_table_not_empty :
  ¬ (∀ df source,
       Mapper.get_column_mapping (columns df) source = ∅ →
       ∃ out, Sample.validate_and_clean (apply_mapping df ∅) = Some out
            ∧ empty_frame out).
Proof.
  intros Hall.
  destruct (Hall Sample.opaque_table "kaggle") as (out & Hout & Hempty).
  - apply (bool_decide_unpack _). by vm_compute.
  - assert (Hres : Sample.validate_and_clean
                     (apply_mapping Sample.opaque_table ∅)
                   = Some (mkDF 2 [("movie_id",
                                    [CStr "MOV00001"; CStr "MOV00002"])]))
      by (by vm_compute).
    rewrite Hres in Hout. injection Hout as <-.
    by destruct Hempty.
Qed.

(** The effect of a mapping that sends two raw columns to one field: the
    projected table has two [rating] columns and [_validate_and_clean]
    raises on the first of its Series operations. *)
Lemma repeated_destination_raises :
  let mapping :=
    (Mapper.resolve (columns Sample.two_ratings) (Some "rotten_tomatoes")
       None).1 in
  mapping !! "rating" = Some "rating"
  ∧ mapping !! "audience_score" = Some "rating"
  ∧ columns (apply_mapping Sample.two_ratings mapping)
    = ["title"; "rating"; "rating"]
  ∧ Sample.load_and_map Sample.two_ratings (Some "rotten_tomatoes") None
    = None.
Proof. by vm_compute. Qed.

(** C5 at its failing input: the titles of the output are numbers though
    the schema declares [title] as text, and the imputed runtime is not a
    whole number though the schema declares [runtime] as an integer. *)
Lemma schema_types_not_enforced :
  ∃ out,
    Sample.load_and_map Sample.numeric_titles None None = Some out
    ∧ getitem "title" out = Some [Sample.num 1917; Sample.num 300;
                                  Sample.num 2012]
    ∧ has_dtype TStr (Sample.num 1917) = false
    ∧ getitem "runtime" out
      = Some [Sample.num 119; Sample.num 116; CNum (Q2Qc (235 # 2))]
    ∧ has_dtype TInt (CNum (Q2Qc (235 # 2))) = false
    ∧ ¬ conforms_to_schema out.
Proof.
  set (out := mkDF 3 [ ("title", [Sample.num 1917; Sample.num 300;
                                  Sample.num 2012]);
                       ("runtime", [Sample.num 119; Sample.num 116;
                                    CNum (Q2Qc (235 # 2))]);
                       ("movie_id", [CStr "MOV00001"; CStr "MOV00002";
                                     CStr "MOV00003"]) ]).
  exists out.
  split; [apply (bool_decide_unpack _); by vm_compute|].
  split; [reflexivity|]. split; [reflexivity|].
  split; [reflexivity|]. split; [reflexivity|].
  intros Hconf.
  specialize (Hconf "title" TStr
                [Sample.num 1917; Sample.num 300; Sample.num 2012]).
  assert (Hf : Forall (λ c, has_dtype TStr c = true)
                 [Sample.num 1917; Sample.num 300; Sample.num 2012]).
  { apply Hconf; [|reflexivity]. apply (bool_decide_unpack _). by vm_compute. }
  by inversion Hf.
Qed.

(** The scenario of the specification: two rows with the same title and
    year and different ratings; the first one remains. *)
Example dedup_scenario :
  Sample.validate_and_clean
    (mkDF 3 [ ("title", [CStr "Heat"; CStr "Heat"; CStr "Ran"]);
              ("release_year", [Sample.num 1995; Sample.num 1995;
                                Sample.num 1985]);
              ("rating", [Sample.num 8; Sample.num 6; Sample.num 9]) ])
  = Some
      (mkDF 2 [ ("title", [CStr "Heat"; CStr "Ran"]);
                ("release_year", [Sample.num 1995; Sample.num 1985]);
                ("rating", [Sample.num 8; Sample.num 9]);
                ("movie_id", [CStr "MOV00001"; CStr "MOV00002"]) ]).
Proof. apply (bool_decide_unpack _). by vm_compute. Qed.

End NormalizerFacts.

(** ** The object store: the caller's table is never updated *)

Module StoreFacts.

Import Frame Store.

Implicit Types (h : gmap nat DataFrame) (r : nat) (df : DataFrame).

Lemma post_bind {A B} (m : M A) (k : A → M B) h Q :
  post m h (λ res h', match res with
                      | Some a => post (k a) h' Q
                      | None => Q None h'
                      end) →
  post (m ≫= k) h Q.
Proof. unfold post, mbind, M_bind. by destruct (m h) as [[a|] h']. Qed.

Lemma post_ret {A} (a : A) h Q : Q (Some a) h → post (mret a) h Q.
Proof. done. Qed.

Lemma post_read r h Q : Q (h !! r) h → post (read r) h Q.
Proof. done. Qed.

Lemma post_alloc df h Q :
  (∀ r, h !! r = None → Q (Some r) (<[r := df]> h)) → post (alloc df) h Q.
Proof.
  intros HQ. unfold post, alloc. simpl. apply HQ.
  apply not_elem_of_dom, is_fresh.
Qed.

Lemma post_in_place r f h df Q :
  h !! r = Some df →
  match f df with
  | Some df' => Q (Some ()) (<[r := df']> h)
  | None => Q None h
  end →
  post (in_place r f) h Q.
Proof.
  intros Hr HQ. unfold post, in_place. rewrite Hr.
  by destruct (f df).
Qed.

Lemma unchanged_refl h : unchanged h h.
Proof. by intros r df. Qed.

Lemma unchanged_fresh h h1 r :
  unchanged h h1 → h1 !! r = None → h !! r = None.
Proof.
  intros Hu Hr. destruct (h !! r) as [df|] eqn:E; [|done].
  apply Hu in E. congruence.
Qed.

(** Writing to an object that did not exist in [h] keeps [h]. *)
Lemma unchanged_insert h h1 r df :
  unchanged h h1 → h !! r = None → unchanged h (<[r := df]> h1).
Proof.
  intros Hu Hr r0 df0 H0.
  rewrite lookup_insert_ne by congruence. by apply Hu.
Qed.

Lemma unchanged_trans h h1 h2 :
  unchanged h h1 → unchanged h1 h2 → unchanged h h2.
Proof. intros H1 H2 r df Hr. by apply H2, H1. Qed.

Lemma post_mono {A} (m : M A) h (Q Q' : option A → gmap nat DataFrame → Prop) :
  post m h Q → (∀ res h', Q res h' → Q' res h') → post m h Q'.
Proof. unfold post. auto. Qed.

Lemma apply_mapping_post r (mapping : gmap string string) h :
  post (apply_mapping r mapping) h (λ res h',
    unchanged h h'
    ∧ match res with
      | Some r' =>
          h !! r' = None
          ∧ ∃ df, h !! r = Some df
              ∧ h' !! r' = Some (Normalizer.apply_mapping df mapping)
      | None => h !! r = None
      end).
Proof.
  unfold apply_mapping.
  apply post_bind, post_read.
  destruct (h !! r) as [df|] eqn:Hr; [|split; [apply unchanged_refl | done]].
  apply post_bind, post_alloc. intros r1 Hr1.
  apply post_bind, post_read. rewrite lookup_insert_eq.
  apply post_bind, post_alloc. intros r2 Hr2.
  apply post_bind, post_read. rewrite lookup_insert_eq.
  apply post_alloc. intros r3 Hr3.
  assert (U1 : unchanged h (<[r1 := rename mapping df]> h))
    by (by apply unchanged_insert; [apply unchanged_refl|]).
  assert (H2 : h !! r2 = None) by (by eapply unchanged_fresh).
  pose proof (unchanged_insert _ _ r2
                (select (filter (λ col, col ∈ columns (rename mapping df))
                           schema_keys) (rename mapping df)) U1 H2) as U2.
  assert (H3 : h !! r3 = None) by (by eapply unchanged_fresh).
  split; [by apply unchanged_insert|]. split; [done|].
  exists df. split; [done|]. by rewrite lookup_insert_eq.
Qed.

Section WithPandas.

Variable to_numeric_str : string → option Qc.
Variable str_of_num : Qc → string.

Local Abbreviation pure_validate :=
  (Normalizer.validate_and_clean to_numeric_str str_of_num).

(** The statements of [_validate_and_clean] after the de-duplication,
    run on the working frame [w]. *)
Lemma in_place_steps_post w h0 h d :
  unchanged h0 h → h0 !! w = None → h !! w = Some d →
  post (_ ← in_place w (Normalizer.step_median to_numeric_str "rating");
        _ ← in_place w (Normalizer.step_zero to_numeric_str "vote_count");
        _ ← in_place w (Normalizer.step_median to_numeric_str "runtime");
        _ ← in_place w (Normalizer.step_release_year to_numeric_str);
        _ ← in_place w (Normalizer.step_zero to_numeric_str "popularity");
        _ ← in_place w (λ d, Some (Normalizer.step_movie_id d));
        _ ← in_place w (Normalizer.step_genres str_of_num);
        mret w) h
    (λ res h',
       unchanged h0 h'
       ∧ (d1 ← Normalizer.step_median to_numeric_str "rating" d;
          d2 ← Normalizer.step_zero to_numeric_str "vote_count" d1;
          d3 ← Normalizer.step_median to_numeric_str "runtime" d2;
          d4 ← Normalizer.step_release_year to_numeric_str d3;
          d5 ← Normalizer.step_zero to_numeric_str "popularity" d4;
          Normalizer.step_genres str_of_num (Normalizer.step_movie_id d5))
         = (r' ← res; h' !! r')
       ∧ ∀ r', res = Some r' → r' = w).
Proof.
  intros Hu Hw0 Hw.
  apply post_bind. eapply post_in_place; [exact Hw|].
  destruct (Normalizer.step_median _ "rating" d) as [d1|]; simpl;
    [|by split].
  assert (U1 := unchanged_insert _ _ w d1 Hu Hw0).
  apply post_bind. eapply post_in_place; [apply lookup_insert_eq|].
  destruct (Normalizer.step_zero _ "vote_count" d1) as [d2|]; simpl;
    [|by split].
  rewrite insert_insert_eq.
  assert (U2 := unchanged_insert _ _ w d2 Hu Hw0).
  apply post_bind. eapply post_in_place; [apply lookup_insert_eq|].
  destruct (Normalizer.step_median _ "runtime" d2) as [d3|]; simpl;
    [|by split].
  rewrite insert_insert_eq.
  assert (U3 := unchanged_insert _ _ w d3 Hu Hw0).
  apply post_bind. eapply post_in_place; [apply lookup_insert_eq|].
  destruct (Normalizer.step_release_year _ d3) as [d4|]; simpl;
    [|by split].
  rewrite insert_insert_eq.
  assert (U4 := unchanged_insert _ _ w d4 Hu Hw0).
  apply post_bind. eapply post_in_place; [apply lookup_insert_eq|].
  destruct (Normalizer.step_zero _ "popularity" d4) as [d5|]; simpl;
    [|by split].
  rewrite insert_insert_eq.
  assert (U5 := unchanged_insert _ _ w d5 Hu Hw0).
  apply post_bind. eapply post_in_place; [apply lookup_insert_eq|].
  rewrite insert_insert_eq.
  assert (U6 := unchanged_insert _ _ w (Normalizer.step_movie_id d5) Hu Hw0).
  apply post_bind. eapply post_in_place; [apply lookup_insert_eq|].
  destruct (Normalizer.step_genres _ (Normalizer.step_movie_id d5))
    as [d7|]; simpl; [|by split].
  rewrite insert_insert_eq.
  apply post_ret. split; [by apply unchanged_insert|].
  split; [simpl; by rewrite lookup_insert_eq | by intros r' [= <-]].
Qed.

Lemma validate_and_clean_post r h :
  post (validate_and_clean to_numeric_str str_of_num r) h (λ res h',
    unchanged h h'
    ∧ match res with
      | Some r' =>
          h !! r' = None
          ∧ ∃ df, h !! r = Some df ∧ h' !! r' = pure_validate df
      | None =>
          ∀ df, h !! r = Some df → pure_validate df = None
      end).
Proof.
  unfold validate_and_clean.
  apply post_bind, post_read.
  destruct (h !! r) as [df|] eqn:Hr; [|split; [apply unchanged_refl | done]].
  apply post_bind, post_alloc. intros r1 Hr1.
  assert (U1 : unchanged h (<[r1 := df]> h))
    by (by apply unchanged_insert; [apply unchanged_refl|]).
  apply post_bind, post_read. rewrite lookup_insert_eq.
  assert (Hwork : ∀ w h2,
             unchanged h h2 → h !! w = None →
             h2 !! w = Some (Normalizer.dedup_step df) →
             post (_ ← in_place w (Normalizer.step_median to_numeric_str "rating");
                   _ ← in_place w (Normalizer.step_zero to_numeric_str "vote_count");
                   _ ← in_place w (Normalizer.step_median to_numeric_str "runtime");
                   _ ← in_place w (Normalizer.step_release_year to_numeric_str);
                   _ ← in_place w (Normalizer.step_zero to_numeric_str "popularity");
                   _ ← in_place w (λ d, Some (Normalizer.step_movie_id d));
                   _ ← in_place w (Normalizer.step_genres str_of_num);
                   mret w) h2
               (λ res h',
                  unchanged h h'
                  ∧ match res with
                    | Some r' =>
                        h !! r' = None
                        ∧ ∃ df0, Some df = Some df0
                            ∧ h' !! r' = pure_validate df0
                    | None =>
                        ∀ df0, Some df = Some df0 → pure_validate df0 = None
                    end)).
  { intros w h2 Hu Hw0 Hw.
    pose proof (in_place_steps_post w h h2 _ Hu Hw0 Hw) as Hpost.
    unfold post in *.
    match goal with
    | |- context [(?m h2).1] => destruct (m h2) as [res h']
    end.
    simpl in *. destruct Hpost as (Hu' & Heq & Hres).
    split; [done|]. destruct res as [r'|]; simpl in *.
    - rewrite (Hres r' eq_refl). split; [done|].
      exists df. split; [done|].
      rewrite (Hres r' eq_refl) in Heq. by rewrite <- Heq.
    - by intros df0 [= <-]. }
  apply post_bind. unfold Normalizer.dedup_step in Hwork.
  case_bool_decide as Hboth.
  - apply post_alloc. intros r2 Hr2.
    assert (H2 : h !! r2 = None) by (by eapply unchanged_fresh).
    apply Hwork; [by apply unchanged_insert | done |].
    by rewrite lookup_insert_eq.
  - apply post_ret. apply Hwork; [done | done |].
    by rewrite lookup_insert_eq.
Qed.

Lemma load_and_map_post r source custom h :
  post (load_and_map to_numeric_str str_of_num r source custom) h
    (λ res h',
       unchanged h h'
       ∧ match res with
         | Some r' =>
             h !! r' = None
             ∧ ∃ df, h !! r = Some df
                 ∧ h' !! r'
                   = Normalizer.load_and_map to_numeric_str str_of_num
                       df source custom
         | None =>
             ∀ df, h !! r = Some df →
               Normalizer.load_and_map to_numeric_str str_of_num
                 df source custom = None
         end).
Proof.
  unfold load_and_map.
  apply post_bind, post_read.
  destruct (h !! r) as [df|] eqn:Hr; [|split; [apply unchanged_refl | done]].
  apply post_bind.
  eapply post_mono; [apply apply_mapping_post|].
  intros [r1|] h1 (U1 & Hres1); simpl in Hres1.
  - destruct Hres1 as (Hf1 & df' & Hdf' & Hr1).
    assert (df' = df) as -> by congruence.
    eapply post_mono; [apply validate_and_clean_post|].
    intros [r2|] h2 (U2 & Hres2); simpl in Hres2.
    + destruct Hres2 as (Hf2 & df1 & Hdf1 & Hr2).
      assert (df1 = Normalizer.apply_mapping df
                      (Mapper.resolve (columns df) source custom).1)
        as -> by congruence.
      split; [by eapply unchanged_trans|].
      split; [by eapply unchanged_fresh|].
      exists df. by split.
    + split; [by eapply unchanged_trans|].
      intros df0 [= <-]. by apply Hres2.
  - congruence.
Qed.

(** C9. Run on a store [h], [_apply_mapping], [_validate_and_clean] and
    [load_and_map] leave every object of [h] as it was, the table they
    are given included, whether they return or raise; the table they
    return is a new object, and it holds what the function computes
    from the given table. *)
Theorem caller_table_unchanged (h : gmap nat DataFrame) (r : nat) :
  (∀ mapping,
     let '(res, h') := apply_mapping r mapping h in
     unchanged h h'
     ∧ ∀ r', res = Some r' →
         h !! r' = None
         ∧ ∃ df, h !! r = Some df
             ∧ h' !! r' = Some (Normalizer.apply_mapping df mapping))
  ∧ (let '(res, h') :=
       validate_and_clean to_numeric_str str_of_num r h in
     unchanged h h'
     ∧ ∀ r', res = Some r' →
         h !! r' = None
         ∧ ∃ df, h !! r = Some df ∧ h' !! r' = pure_validate df)
  ∧ (∀ source custom,
       let '(res, h') :=
         load_and_map to_numeric_str str_of_num r source custom h in
       unchanged h h'
       ∧ ∀ r', res = Some r' →
           h !! r' = None
           ∧ ∃ df, h !! r = Some df
               ∧ h' !! r'
                 = Normalizer.load_and_map to_numeric_str str_of_num
                     df source custom).
Proof.
  split; [|split].
  - intros mapping. pose proof (apply_mapping_post r mapping h) as Hp.
    unfold post in Hp. destruct (apply_mapping r mapping h) as [res h'].
    simpl in Hp. destruct Hp as [Hu Hres]. split; [done|].
    by intros r' ->.
  - pose proof (validate_and_clean_post r h) as Hp.
    unfold post in Hp.
    destruct (validate_and_clean _ _ r h) as [res h'].
    simpl in Hp. destruct Hp as [Hu Hres]. split; [done|].
    by intros r' ->.
  - intros source custom.
    pose proof (load_and_map_post r source custom h) as Hp.
    unfold post in Hp.
    destruct (load_and_map _ _ r source custom h) as [res h'].
    simpl in Hp. destruct Hp as [Hu Hres]. split; [done|].
    by intros r' ->.
Qed.

End WithPandas.

(** The caller's table after a run of [load_and_map] on a store that
    holds it at reference 0. *)
Example caller_table_after_load :
  let '(res, h') :=
    load_and_map Sample.to_numeric_str Sample.str_of_num 0 None None
      {[ 0 := Sample.gaps ]} in
  h' !! 0 = Some Sample.gaps
  ∧ ∃ r', res = Some r' ∧ r' ≠ 0 ∧ is_Some (h' !! r').
Proof.
  vm_compute. split; [reflexivity|]. eexists. split; [reflexivity|].
  split; [discriminate|]. by eexists.
Qed.

End StoreFacts.

(** ** Column mapper: where the entries of the mapping come from *)

Module MapperSound.

Import Mapper MapperFacts.

Implicit Types (dcl m : gmap string string) (cols : list string).

(** The lower-case index holds columns of the table under their
    lower-cased names. *)
Lemma cols_lower_Some cols k a :
  cols_lower cols !! k = Some a → a ∈ cols ∧ Text.lower a = k.
Proof.
  unfold cols_lower.
  assert (Hgen : ∀ m,
             foldl (λ m col, <[Text.lower col := col]> m) m cols !! k = Some a →
             m !! k = Some a ∨ (a ∈ cols ∧ Text.lower a = k)).
  { induction cols as [|x r IH]; intros m Hm; simpl in Hm; [by left|].
    apply IH in Hm as [Hm|[Hin Hl]]; [|right; split; [by right | done]].
    destruct (decide (Text.lower x = k)) as [<-|Hne].
    - rewrite lookup_insert_eq in Hm. injection Hm as <-.
      right. split; [left | done].
    - rewrite lookup_insert_ne in Hm by done. by left. }
  intros H. apply Hgen in H as [H|H]; [|done]. by rewrite lookup_empty in H.
Qed.

Lemma cols_lower_None cols k :
  cols_lower cols !! k = None ↔ k ∉ Text.lower <$> cols.
Proof.
  split.
  - intros Hn Hin. apply list_elem_of_fmap in Hin as (c & -> & Hc).
    apply cols_lower_lookup in Hc. rewrite Hn in Hc. by destruct Hc.
  - intros Hn. destruct (cols_lower cols !! k) as [a|] eqn:E; [|done].
    apply cols_lower_Some in E as [Ha <-]. exfalso. apply Hn.
    by apply list_elem_of_fmap_2.
Qed.

(** The inner fuzzy loop, with the pattern that fired. *)
Lemma fuzzy_patterns_fired dcl std_col patterns m :
  fuzzy_patterns dcl std_col patterns m = m
  ∨ ∃ p raw, p ∈ patterns ∧ dcl !! Text.lower p = Some raw ∧ m !! raw = None
       ∧ fuzzy_patterns dcl std_col patterns m = <[raw := std_col]> m.
Proof.
  induction patterns as [|p rest IH]; simpl; [by left|].
  assert (Hrest : fuzzy_patterns dcl std_col rest m = m
            ∨ ∃ p0 raw, p0 ∈ p :: rest ∧ dcl !! Text.lower p0 = Some raw
                ∧ m !! raw = None
                ∧ fuzzy_patterns dcl std_col rest m = <[raw := std_col]> m).
  { destruct IH as [?|(p0 & raw & ? & ? & ? & ?)]; [by left|].
    right. exists p0, raw. by repeat split; [right|..]. }
  destruct (dcl !! Text.lower p) as [a|] eqn:Hp; [|done].
  unfold in_keys. case_bool_decide as Hk; [done|].
  right. exists p, a. split; [left|]. split; [done|]. split; [|done].
  destruct (m !! a) eqn:E; [|done]. exfalso. apply Hk. by eexists.
Qed.

(** Entries are only ever added: no pass changes or removes one. *)
Lemma fuzzy_patterns_mono dcl std_col patterns m raw d :
  m !! raw = Some d → fuzzy_patterns dcl std_col patterns m !! raw = Some d.
Proof.
  intros Hm.
  destruct (fuzzy_patterns_fired dcl std_col patterns m)
    as [->|(p & a & _ & _ & Ha & ->)]; [done|].
  rewrite lookup_insert_ne; [done|]. congruence.
Qed.

Lemma fuzzy_steps_mono dcl entries m raw d :
  m !! raw = Some d → foldl (fuzzy_step dcl) m entries !! raw = Some d.
Proof.
  revert m. induction entries as [|e rest IH]; intros m Hm; simpl; [done|].
  apply IH. unfold fuzzy_step. destruct (in_values e.1 m); [done|].
  by apply fuzzy_patterns_mono.
Qed.

Lemma fuzzy_steps_nonempty dcl entries m :
  m ≠ ∅ → foldl (fuzzy_step dcl) m entries ≠ ∅.
Proof.
  intros Hm Hres. apply Hm. apply map_eq. intros k. rewrite lookup_empty.
  destruct (m !! k) as [d|] eqn:E; [|done].
  apply (fuzzy_steps_mono dcl entries) in E. by rewrite Hres, lookup_empty in E.
Qed.

(** Provenance of an entry added by the exact pass. *)
Lemma exact_matches_Some dcl (source_map : list (string * string)) raw d :
  exact_matches dcl source_map !! raw = Some d →
  ∃ k, (k, d) ∈ source_map ∧ dcl !! Text.lower k = Some raw.
Proof.
  unfold exact_matches.
  assert (Hgen : ∀ m, foldl (exact_step dcl) m source_map !! raw = Some d →
             m !! raw = Some d
             ∨ ∃ k, (k, d) ∈ source_map ∧ dcl !! Text.lower k = Some raw).
  { induction source_map as [|[k0 d0] r IH]; intros m Hm; simpl in Hm;
      [by left|].
    apply IH in Hm as [Hm|(k & Hk & Hl)];
      [|right; exists k; split; [by right | done]].
    unfold exact_step in Hm. simpl in Hm.
    destruct (dcl !! Text.lower k0) as [a|] eqn:Ha; [|by left].
    destruct (decide (a = raw)) as [->|Hne].
    - rewrite lookup_insert_eq in Hm. injection Hm as ->.
      right. exists k0. split; [left | done].
    - rewrite lookup_insert_ne in Hm by done. by left. }
  intros H. apply Hgen in H as [H|H]; [|done]. by rewrite lookup_empty in H.
Qed.

(** Provenance of an entry after the fuzzy pass of [_get_column_mapping]. *)
Lemma fuzzy_steps_Some dcl (entries : list (string * list string)) m raw d :
  foldl (fuzzy_step dcl) m entries !! raw = Some d →
  m !! raw = Some d
  ∨ ∃ pats p, (d, pats) ∈ entries ∧ p ∈ pats ∧ dcl !! Text.lower p = Some raw.
Proof.
  revert m. induction entries as [|[f pats] rest IH]; intros m Hm;
    simpl in Hm; [by left|].
  apply IH in Hm as [Hm|(pats' & p & He & Hp & Hl)];
    [|right; exists pats', p; split; [by right | done]].
  unfold fuzzy_step in Hm. simpl in Hm.
  destruct (in_values f m); [by left|].
  destruct (fuzzy_patterns_fired dcl f pats m)
    as [Heq|(p & a & Hp & Ha & _ & Heq)]; rewrite Heq in Hm; [by left|].
  destruct (decide (a = raw)) as [->|Hne].
  - rewrite lookup_insert_eq in Hm. injection Hm as ->.
    right. exists pats, p. split; [left | done].
  - rewrite lookup_insert_ne in Hm by done. by left.
Qed.

(** Provenance of an entry of [_fuzzy_match_all]. *)
Lemma fuzzy_all_steps_Some dcl (entries : list (string * list string)) m raw d :
  foldl (fuzzy_all_step dcl) m entries !! raw = Some d →
  m !! raw = Some d
  ∨ ∃ pats p, (d, pats) ∈ entries ∧ p ∈ pats ∧ dcl !! Text.lower p = Some raw.
Proof.
  revert m. induction entries as [|[f pats] rest IH]; intros m Hm;
    simpl in Hm; [by left|].
  apply IH in Hm as [Hm|(pats' & p & He & Hp & Hl)];
    [|right; exists pats', p; split; [by right | done]].
  unfold fuzzy_all_step in Hm. simpl in Hm.
  destruct (fuzzy_patterns_fired dcl f pats m)
    as [Heq|(p & a & Hp & Ha & _ & Heq)]; rewrite Heq in Hm; [by left|].
  destruct (decide (a = raw)) as [->|Hne].
  - rewrite lookup_insert_eq in Hm. injection Hm as ->.
    right. exists pats, p. split; [left | done].
  - rewrite lookup_insert_ne in Hm by done. by left.
Qed.

(** The destinations the registry can produce are canonical fields. *)
Lemma registry_destinations_canonical :
  Forall (λ e : string * list (string * string),
            Forall (λ kd : string * string, kd.2 ∈ schema_keys) e.2)
         SOURCE_MAPPINGS
  ∧ Forall (λ e : string * list string, e.1 ∈ schema_keys) FUZZY_PATTERNS.
Proof. split; apply (bool_decide_unpack _); by vm_compute. Qed.

Lemma assoc_get_elem {V} (k : string) (d : list (string * V)) v :
  assoc_get k d = Some v → (k, v) ∈ d.
Proof.
  induction d as [|[k' v'] r IH]; simpl; [done|].
  case_bool_decide as Hk; [intros [= ->]; subst; left | intros H; right; auto].
Qed.

Lemma source_dictionary_canonical source k d :
  (k, d) ∈ source_dictionary source → d ∈ schema_keys.
Proof.
  unfold source_dictionary.
  destruct (assoc_get source SOURCE_MAPPINGS) as [sm|] eqn:E; simpl;
    [|by intros H; apply elem_of_nil in H].
  intros Hkd. apply assoc_get_elem in E.
  destruct registry_destinations_canonical as [Hreg _].
  rewrite Forall_forall in Hreg. specialize (Hreg _ E). simpl in Hreg.
  rewrite Forall_forall in Hreg. by apply (Hreg (k, d)).
Qed.

(** Where an entry of the resolved mapping comes from. *)
Lemma get_column_mapping_provenance cols source raw d :
  get_column_mapping cols source !! raw = Some d →
  (∃ k, (k, d) ∈ source_dictionary source
      ∧ cols_lower cols !! Text.lower k = Some raw)
  ∨ (∃ pats p, (d, pats) ∈ FUZZY_PATTERNS ∧ p ∈ pats
       ∧ cols_lower cols !! Text.lower p = Some raw).
Proof.
  intros Hm. unfold get_column_mapping in Hm. cbv zeta in Hm.
  fold (source_dictionary source) in Hm.
  case_bool_decide as He.
  - unfold fuzzy_match_all in Hm.
    apply fuzzy_all_steps_Some in Hm as [Hm|Hm]; [|by right].
    by rewrite lookup_empty in Hm.
  - apply fuzzy_steps_Some in Hm as [Hm|Hm]; [|by right].
    left. by apply exact_matches_Some.
Qed.

Lemma get_column_mapping_keys cols source raw d :
  get_column_mapping cols source !! raw = Some d → raw ∈ cols.
Proof.
  intros Hm.
  destruct (get_column_mapping_provenance _ _ _ _ Hm)
    as [(k & _ & Hl)|(pats & p & _ & _ & Hl)];
    by apply cols_lower_Some in Hl as [? _].
Qed.

(** X3. Every entry of the resolved mapping sends a column of the table to
    a canonical field, and the registry justifies it: the lower-cased name
    of the column is a key of the source's dictionary with that
    destination, or one of the fuzzy patterns of that field. *)
Theorem get_column_mapping_sound cols source raw d :
  get_column_mapping cols source !! raw = Some d →
  raw ∈ cols
  ∧ d ∈ schema_keys
  ∧ ((∃ k, (k, d) ∈ source_dictionary source
         ∧ Text.lower raw = Text.lower k)
     ∨ (∃ pats p, (d, pats) ∈ FUZZY_PATTERNS ∧ p ∈ pats
          ∧ Text.lower raw = Text.lower p)).
Proof.
  intros Hm.
  destruct (get_column_mapping_provenance _ _ _ _ Hm)
    as [(k & Hk & Hl)|(pats & p & He & Hp & Hl)];
    apply cols_lower_Some in Hl as [Hin Hlow].
  - split; [done|]. split; [by eapply source_dictionary_canonical|].
    left. by exists k.
  - split; [done|]. split.
    + destruct registry_destinations_canonical as [_ Hreg].
      rewrite Forall_forall in Hreg. by apply (Hreg (d, pats)).
    + right. by exists pats, p.
Qed.

Lemma get_column_mapping_sound_witness :
  get_column_mapping ["Title"; "Score"; "notes"] "imdb" !! "Score"
  = Some "rating"
  ∧ "Score" ∈ ["Title"; "Score"; "notes"] ∧ "rating" ∈ schema_keys.
Proof.
  assert (H : get_column_mapping ["Title"; "Score"; "notes"] "imdb" !! "Score"
              = Some "rating") by (by vm_compute).
  split; [exact H|].
  destruct (get_column_mapping_sound _ _ _ _ H) as (Hin & Hd & _).
  by split.
Defined.

(** Within one source dictionary the keys stay distinct when
    lower-cased. *)
Lemma source_dictionary_keys_NoDup source :
  NoDup (Text.lower <$> (source_dictionary source).*1).
Proof.
  unfold source_dictionary.
  destruct (assoc_get source SOURCE_MAPPINGS) as [sm|] eqn:E; simpl;
    [|constructor].
  apply assoc_get_elem in E.
  assert (Hall : Forall (λ e : string * list (string * string),
                           NoDup (Text.lower <$> e.2.*1)) SOURCE_MAPPINGS)
    by (apply (bool_decide_unpack _); by vm_compute).
  rewrite Forall_forall in Hall. by apply (Hall _ E).
Qed.

Lemma exact_steps_keep dcl (source_map : list (string * string)) m raw d :
  (∀ k a, dcl !! k = Some a → Text.lower a = k) →
  (∀ e, e ∈ source_map → Text.lower e.1 ≠ Text.lower raw) →
  m !! raw = Some d →
  foldl (exact_step dcl) m source_map !! raw = Some d.
Proof.
  intros Hdcl. revert m.
  induction source_map as [|[k0 d0] r IH]; intros m Hne Hm; simpl; [done|].
  apply IH; [intros e He; apply Hne; by right|].
  unfold exact_step. simpl.
  destruct (dcl !! Text.lower k0) as [a|] eqn:Ha; [|done].
  rewrite lookup_insert_ne; [done|]. intros ->.
  apply Hdcl in Ha. by apply (Hne (k0, d0)); [left|].
Qed.

Lemma exact_steps_hit dcl (source_map : list (string * string)) m k d raw :
  (∀ k a, dcl !! k = Some a → Text.lower a = k) →
  NoDup (Text.lower <$> source_map.*1) →
  (k, d) ∈ source_map → dcl !! Text.lower k = Some raw →
  foldl (exact_step dcl) m source_map !! raw = Some d.
Proof.
  intros Hdcl. revert m.
  induction source_map as [|[k0 d0] r IH]; intros m Hnd Hin Hk;
    [by apply elem_of_nil in Hin|].
  csimpl in Hnd. apply NoDup_cons in Hnd as [Hk0 Hnd].
  apply elem_of_cons in Hin as [[= <- <-]|Hin]; simpl.
  - apply exact_steps_keep; [done| |].
    + intros e He Heq. apply Hk0.
      rewrite <- (Hdcl _ _ Hk), <- Heq.
      apply list_elem_of_fmap_2. by apply list_elem_of_fmap_2.
    + unfold exact_step. simpl. rewrite Hk. apply lookup_insert_eq.
  - by apply IH.
Qed.

(** X4. The exact dictionary has priority: a column whose lower-cased name
    is a key of the source's dictionary is mapped to the destination the
    dictionary gives, whatever the fuzzy patterns say. (For columns that
    differ only in case, the last one is the column meant.) *)
Theorem exact_dictionary_wins cols source k d raw :
  (k, d) ∈ source_dictionary source →
  cols_lower cols !! Text.lower k = Some raw →
  get_column_mapping cols source !! raw = Some d.
Proof.
  intros Hk Hraw.
  assert (Hexact : exact_matches (cols_lower cols) (source_dictionary source)
                   !! raw = Some d).
  { unfold exact_matches. eapply exact_steps_hit; [|apply source_dictionary_keys_NoDup|done..].
    intros k' a Ha. by apply cols_lower_Some in Ha as [_ ?]. }
  pose proof (fuzzy_steps_mono (cols_lower cols) FUZZY_PATTERNS _ _ _ Hexact)
    as Hfuzzy.
  unfold get_column_mapping. cbv zeta. fold (source_dictionary source).
  case_bool_decide as He; [|done].
  by rewrite He, lookup_empty in Hfuzzy.
Qed.

Lemma exact_dictionary_wins_witness :
  ("vote_average", "rating") ∈ source_dictionary "tmdb"
  ∧ get_column_mapping ["Vote_Average"; "rating"; "score"] "tmdb"
    !! "Vote_Average" = Some "rating".
Proof.
  assert (H1 : ("vote_average", "rating") ∈ source_dictionary "tmdb")
    by (apply (bool_decide_unpack _); by vm_compute).
  split; [exact H1|].
  apply (exact_dictionary_wins _ "tmdb" "vote_average" "rating" _ H1).
  by vm_compute.
Defined.





Lemma exact_steps_miss dcl (source_map : list (string * string)) m :
  (∀ k d, (k, d) ∈ source_map → dcl !! Text.lower k = None) →
  foldl (exact_step dcl) m source_map = m.
Proof.
  revert m. induction source_map as [|[k0 d0] r IH]; intros m Hnone; [done|].
  simpl. unfold exact_step at 2. simpl.
  rewrite (Hnone k0 d0) by left. apply IH.
  intros k d Hk. apply (Hnone k d). by right.
Qed.

Lemma fuzzy_patterns_miss dcl std_col patterns m :
  (∀ p, p ∈ patterns → dcl !! Text.lower p = None) →
  fuzzy_patterns dcl std_col patterns m = m.
Proof.
  induction patterns as [|p rest IH]; intros Hnone; [done|].
  simpl. rewrite (Hnone p) by left. apply IH. intros q Hq. apply Hnone. by right.
Qed.

Lemma fuzzy_steps_miss dcl (entries : list (string * list string)) m :
  (∀ f pats p, (f, pats) ∈ entries → p ∈ pats → dcl !! Text.lower p = None) →
  foldl (fuzzy_step dcl) m entries = m
  ∧ foldl (fuzzy_all_step dcl) m entries = m.
Proof.
  revert m. induction entries as [|[f pats] rest IH]; intros m Hnone; [done|].
  assert (Hp : fuzzy_patterns dcl f pats m = m).
  { apply fuzzy_patterns_miss. intros p Hp. by apply (Hnone f pats); [left|]. }
  assert (Hrest : ∀ f' pats' p, (f', pats') ∈ rest → p ∈ pats' →
                    dcl !! Text.lower p = None).
  { intros f' pats' p He Hp'. apply (Hnone f' pats'); [by right | done]. }
  simpl. unfold fuzzy_step at 2, fuzzy_all_step at 2. simpl. rewrite Hp.
  destruct (in_values f m); by apply IH.
Qed.

(** X6. The resolved mapping is empty exactly when the table has no known
    column at all: no column whose lower-cased name is a key of the
    source's dictionary or a fuzzy pattern. *)
Theorem get_column_mapping_empty_iff cols source :
  get_column_mapping cols source = ∅
  ↔ (∀ k d, (k, d) ∈ source_dictionary source →
       Text.lower k ∉ Text.lower <$> cols)
    ∧ (∀ f pats p, (f, pats) ∈ FUZZY_PATTERNS → p ∈ pats →
         Text.lower p ∉ Text.lower <$> cols).
Proof.
  split.
  - intros Hm. split.
    + intros k d Hk. apply cols_lower_None.
      destruct (cols_lower cols !! Text.lower k) as [raw|] eqn:E; [|done].
      assert (Hexact : exact_matches (cols_lower cols)
                         (source_dictionary source) !! raw = Some d).
      { unfold exact_matches.
        eapply exact_steps_hit;
          [|apply source_dictionary_keys_NoDup|done..].
        intros k' a Ha. by apply cols_lower_Some in Ha as [_ ?]. }
      apply (fuzzy_steps_mono (cols_lower cols) FUZZY_PATTERNS) in Hexact.
      unfold get_column_mapping in Hm. cbv zeta in Hm.
      fold (source_dictionary source) in Hm.
      case_bool_decide as He; [|by rewrite Hm, lookup_empty in Hexact].
      by rewrite He, lookup_empty in Hexact.
    + intros f pats p Hf Hp. apply cols_lower_None.
      apply get_column_mapping_empty in Hm. unfold fuzzy_match_all in Hm.
      apply fuzzy_all_empty in Hm as [_ Hnone]. by apply (Hnone (f, pats)).
  - intros [Hdict Hfuzzy].
    assert (Hd : ∀ k d, (k, d) ∈ source_dictionary source →
                   cols_lower cols !! Text.lower k = None).
    { intros k d Hk. apply cols_lower_None. by eapply Hdict. }
    assert (Hf : ∀ f pats p, (f, pats) ∈ FUZZY_PATTERNS → p ∈ pats →
                   cols_lower cols !! Text.lower p = None).
    { intros f pats p He Hp. apply cols_lower_None. by eapply Hfuzzy. }
    unfold get_column_mapping, fuzzy_match_all, exact_matches. cbv zeta.
    fold (source_dictionary source).
    rewrite (exact_steps_miss _ _ _ Hd).
    destruct (fuzzy_steps_miss (cols_lower cols) FUZZY_PATTERNS ∅ Hf)
      as [-> ->].
    by case_bool_decide.
Qed.

(** When no two columns collide once lower-cased, the index holds exactly
    the columns. *)
Lemma cols_lower_NoDup cols k a :
  NoDup (Text.lower <$> cols) →
  cols_lower cols !! k = Some a ↔ a ∈ cols ∧ Text.lower a = k.
Proof.
  intros Hnd. split; [apply cols_lower_Some|]. intros [Ha <-].
  destruct (cols_lower_lookup cols a Ha) as [a' Ha'].
  rewrite Ha'. f_equal.
  apply cols_lower_Some in Ha' as [Hin Hl].
  by apply (NoDup_fmap_eq Text.lower cols).
Qed.

Lemma cols_lower_Permutation cols cols' :
  NoDup (Text.lower <$> cols) → cols ≡ₚ cols' →
  cols_lower cols = cols_lower cols'.
Proof.
  intros Hnd Hperm.
  assert (Hnd' : NoDup (Text.lower <$> cols')) by (by rewrite <- Hperm).
  apply map_eq. intros k.
  destruct (cols_lower cols !! k) as [a|] eqn:E.
  - symmetry. apply cols_lower_NoDup; [done|].
    apply cols_lower_NoDup in E as [Ha Hl]; [|done]. by rewrite <- Hperm.
  - destruct (cols_lower cols' !! k) as [a'|] eqn:E'; [|done].
    apply cols_lower_NoDup in E' as [Ha Hl]; [|done].
    rewrite <- Hperm in Ha.
    assert (H : cols_lower cols !! k = Some a') by (by apply cols_lower_NoDup).
    congruence.
Qed.

(** X7. When no two columns differ only in letter case, the resolved
    mapping and the best-effort mapping do not depend on the order of the
    columns. *)
Theorem mapping_order_independent cols cols' source :
  NoDup (Text.lower <$> cols) → cols ≡ₚ cols' →
  get_column_mapping cols source = get_column_mapping cols' source
  ∧ fuzzy_match_all cols = fuzzy_match_all cols'.
Proof.
  intros Hnd Hperm.
  unfold get_column_mapping, fuzzy_match_all. cbv zeta.
  by rewrite (cols_lower_Permutation cols cols' Hnd Hperm).
Qed.

Lemma mapping_order_independent_witness :
  get_column_mapping ["Title"; "Year"; "Score"] "kaggle"
  = get_column_mapping ["Score"; "Title"; "Year"] "kaggle"
  ∧ fuzzy_match_all ["Title"; "Year"; "Score"]
    = fuzzy_match_all ["Score"; "Title"; "Year"].
Proof.
  apply mapping_order_independent.
  - apply (bool_decide_unpack _). by vm_compute.
  - apply (bool_decide_unpack _). by vm_compute.
Defined.

(** With columns that differ only in case the order matters: the last one
    is the one mapped. *)
Example case_collision_last_wins :
  get_column_mapping ["Title"; "TITLE"] "tmdb" = {[ "TITLE" := "title" ]}
  ∧ get_column_mapping ["TITLE"; "Title"] "tmdb" = {[ "Title" := "title" ]}.
Proof. split; apply (bool_decide_unpack _); by vm_compute. Qed.

End MapperSound.

(** ** Source detector: what the result depends on *)

Module DetectorInvariance.

Import Detector.

(** X8. Source detection depends only on the set of lower-cased column
    names: order, repetitions and letter case of the columns do not
    matter. *)
Theorem detect_source_set_of_names (cols cols' : list string) :
  (∀ k, k ∈ Text.lower <$> cols ↔ k ∈ Text.lower <$> cols') →
  detect_source cols = detect_source cols'.
Proof.
  intros Hsame.
  assert (Hset : cols_lower_set cols = cols_lower_set cols').
  { apply set_eq. intros k. unfold cols_lower_set.
    rewrite !elem_of_list_to_set. apply Hsame. }
  unfold detect_source, scores. by rewrite Hset.
Qed.

Lemma detect_source_set_of_names_witness :
  detect_source ["tconst"; "Start_Year"; "x"]
  = detect_source ["X"; "START_YEAR"; "TCONST"; "x"].
Proof.
  apply detect_source_set_of_names.
  intros k. apply (bool_decide_unpack _).
  assert (Heq : (list_to_set (Text.lower <$> ["tconst"; "Start_Year"; "x"]) : gset string)
                = list_to_set (Text.lower <$> ["X"; "START_YEAR"; "TCONST"; "x"]))
    by (apply (bool_decide_unpack _); by vm_compute).
  apply bool_decide_pack.
  rewrite <- !(elem_of_list_to_set (C := gset string)). by rewrite Heq.
Defined.

End DetectorInvariance.

(** ** Projection: what [_apply_mapping] keeps *)

Module ProjectionFacts.

Import Frame Normalizer.

Implicit Types (df : DataFrame) (mapping : gmap string string).

(** A column of the projected table is a raw column whose new label is a
    canonical field. *)
Lemma elem_of_apply_mapping df mapping c data :
  (c, data) ∈ df_cols (apply_mapping df mapping)
  ↔ c ∈ schema_keys
    ∧ ∃ raw, (raw, data) ∈ df_cols df ∧ default raw (mapping !! raw) = c.
Proof.
  unfold apply_mapping, select, rename, columns. simpl.
  rewrite list_elem_of_bind. split.
  - intros (k & Hin & Hk).
    apply list_elem_of_filter in Hin as [Heq Hin]. simpl in Heq. subst k.
    apply list_elem_of_filter in Hk as [_ Hk]. split; [done|].
    apply list_elem_of_fmap in Hin as ([raw data'] & [= -> ->] & Hin).
    by exists raw.
  - intros (Hc & raw & Hin & Heq).
    assert (Hren : (c, data)
              ∈ (λ c0 : string * list cell,
                   (default c0.1 (mapping !! c0.1), c0.2)) <$> df_cols df).
    { apply list_elem_of_fmap. exists (raw, data). simpl. by rewrite Heq. }
    exists c. split.
    + by apply list_elem_of_filter.
    + apply list_elem_of_filter. split; [|done].
      apply list_elem_of_fmap. by exists (c, data).
Qed.

(** X9. [_apply_mapping] keeps the rows, and keeps exactly the raw columns
    whose label after renaming is a canonical field, each with its cells
    untouched; nothing else enters the projected table. *)
Theorem apply_mapping_keeps_canonical df mapping :
  df_len (apply_mapping df mapping) = df_len df
  ∧ (∀ c, c ∈ columns (apply_mapping df mapping)
          ↔ c ∈ schema_keys
            ∧ ∃ raw, raw ∈ columns df ∧ default raw (mapping !! raw) = c)
  ∧ (∀ c data, (c, data) ∈ df_cols (apply_mapping df mapping) →
       ∃ raw, (raw, data) ∈ df_cols df ∧ default raw (mapping !! raw) = c)
  ∧ (∀ raw data, (raw, data) ∈ df_cols df →
       default raw (mapping !! raw) ∈ schema_keys →
       (default raw (mapping !! raw), data)
         ∈ df_cols (apply_mapping df mapping)).
Proof.
  split; [done|]. split; [|split].
  - intros c. unfold columns at 1. rewrite list_elem_of_fmap. split.
    + intros ([c' data] & -> & Hin). simpl.
      apply elem_of_apply_mapping in Hin as (Hc & raw & Hraw & Heq).
      split; [done|]. exists raw. split; [|done].
      unfold columns. apply list_elem_of_fmap. by exists (raw, data).
    + intros (Hc & raw & Hraw & Heq).
      unfold columns in Hraw.
      apply list_elem_of_fmap in Hraw as ([raw' data] & -> & Hin).
      exists (c, data). split; [done|].
      apply elem_of_apply_mapping. split; [done|]. by exists raw'.
  - intros c data Hin. by apply elem_of_apply_mapping in Hin as [_ ?].
  - intros raw data Hin Hc. apply elem_of_apply_mapping. split; [done|].
    by exists raw.
Qed.

(** X10. The report's promise about unmapped columns, made exact: a column
    that the mapping does not mention is dropped by [_apply_mapping]
    unless its own name is a canonical field, in which case it is kept
    as it is. *)
Theorem unmapped_dropped_unless_canonical df mapping raw data :
  raw ∈ unmapped df mapping →
  (raw, data) ∈ df_cols df →
  ((raw, data) ∈ df_cols (apply_mapping df mapping) ↔ raw ∈ schema_keys).
Proof.
  intros Hun Hin. unfold unmapped in Hun.
  apply elem_of_difference in Hun as [_ Hdom].
  apply not_elem_of_dom in Hdom.
  rewrite elem_of_apply_mapping. split; [by intros [? _]|].
  intros Hc. split; [done|]. exists raw. by rewrite Hdom.
Qed.

Lemma unmapped_dropped_unless_canonical_witness :
  "rating" ∈ unmapped Sample.two_ratings {[ "audience_score" := "rating" ]}
  ∧ (("rating", [Sample.num 8; Sample.num 9])
       ∈ df_cols (apply_mapping Sample.two_ratings
                    {[ "audience_score" := "rating" ]})
     ↔ "rating" ∈ schema_keys).
Proof.
  assert (H : "rating" ∈ unmapped Sample.two_ratings
                {[ "audience_score" := "rating" ]})
    by (apply (bool_decide_unpack _); by vm_compute).
  split; [exact H|].
  apply (unmapped_dropped_unless_canonical _ _ _ _ H).
  right. left.
Defined.

(** X11. In the mapping report every column of the table appears exactly
    once: as a key of the resolved mapping or in the unmapped set. *)
Theorem report_partition df source :
  dom (Mapper.get_column_mapping (columns df) source)
    ∪ unmapped df (Mapper.get_column_mapping (columns df) source)
  = list_to_set (columns df)
  ∧ dom (Mapper.get_column_mapping (columns df) source)
      ## unmapped df (Mapper.get_column_mapping (columns df) source).
Proof.
  set (m := Mapper.get_column_mapping (columns df) source).
  assert (Hsub : dom m ⊆ (list_to_set (columns df) : gset string)).
  { intros raw Hraw. apply elem_of_dom in Hraw as [d Hd].
    apply elem_of_list_to_set.
    by apply (MapperSound.get_column_mapping_keys _ source raw d). }
  unfold unmapped. fold m. split.
  - apply set_eq. intros x. rewrite elem_of_union, elem_of_difference.
    split; [intros [?|[? _]]; [by apply Hsub | done]|].
    intros Hx. destruct (decide (x ∈ dom m)); [by left | by right].
  - intros x H1 H2. by apply elem_of_difference in H2 as [_ ?].
Qed.

Lemma labels_filter (k : string) (cols : list (string * list cell)) :
  (filter (λ c : string * list cell, c.1 = k) cols).*1
  = filter (λ l : string, l = k) cols.*1.
Proof.
  induction cols as [|c r IH]; [done|]. csimpl.
  rewrite !filter_cons. simpl. destruct (decide (c.1 = k)); csimpl;
    by rewrite IH.
Qed.

Lemma filter_label_once (k : string) (labels : list string) :
  k ∈ schema_keys → k ∈ labels →
  NoDup (filter (λ l, l ∈ schema_keys) labels) →
  filter (λ l : string, l = k) labels = [k].
Proof.
  intros Hk. induction labels as [|x r IH]; intros Hin Hnd;
    [by apply elem_of_nil in Hin|].
  rewrite filter_cons in Hnd. rewrite filter_cons.
  destruct (decide (x = k)) as [->|Hne].
  - rewrite decide_True in Hnd by done.
    apply NoDup_cons in Hnd as [Hnot _]. f_equal.
    destruct (filter (λ l : string, l = k) r) as [|y t] eqn:E; [done|].
    assert (Hy : y ∈ filter (λ l : string, l = k) r) by (rewrite E; left).
    apply list_elem_of_filter in Hy as [-> Hy].
    exfalso. apply Hnot. by apply list_elem_of_filter.
  - apply elem_of_cons in Hin as [->|Hin]; [done|].
    apply IH; [done|].
    destruct (decide (x ∈ schema_keys)); [by apply NoDup_cons in Hnd as [_ ?]|done].
Qed.

Lemma fmap_bind_distr {A B C} (f : B → C) (g : A → list B) (l : list A) :
  f <$> (l ≫= g) = l ≫= (λ x, f <$> g x).
Proof.
  induction l as [|x r IH]; [done|]. csimpl. by rewrite fmap_app, IH.
Qed.

Lemma bind_singletons (names : list string) (f : string → list string) :
  (∀ k, k ∈ names → f k = [k]) → names ≫= f = names.
Proof.
  induction names as [|k r IH]; intros Hf; [done|]. csimpl.
  rewrite (Hf k) by left. simpl. f_equal. apply IH.
  intros k' Hk'. apply Hf. by right.
Qed.

(** X12. When no canonical label is repeated after renaming, the columns
    of the projected table are the canonical fields present, each once,
    in the order of the schema, whatever the order of the raw columns. *)
Theorem apply_mapping_schema_order df mapping :
  NoDup (filter (λ l, l ∈ schema_keys) (columns (rename mapping df))) →
  columns (apply_mapping df mapping)
  = filter (λ k, k ∈ columns (rename mapping df)) schema_keys
  ∧ sublist (columns (apply_mapping df mapping)) schema_keys
  ∧ NoDup (columns (apply_mapping df mapping)).
Proof.
  intros Hnd.
  assert (Heq : columns (apply_mapping df mapping)
                = filter (λ k, k ∈ columns (rename mapping df)) schema_keys).
  { unfold apply_mapping. cbv zeta. unfold select, columns at 1. simpl.
    rewrite fmap_bind_distr. apply bind_singletons.
    intros k Hk. apply list_elem_of_filter in Hk as [Hin Hk].
    simpl. rewrite labels_filter. by apply filter_label_once. }
  split; [done|]. rewrite Heq. split.
  - apply sublist_filter.
  - apply NoDup_filter. apply (bool_decide_unpack _). by vm_compute.
Qed.

Lemma apply_mapping_schema_order_witness :
  columns (apply_mapping
             (mkDF 1 [ ("Score", [Sample.num 7]); ("extra", [CNull]);
                       ("Year", [Sample.num 1999]); ("Name", [CStr "Ran"]) ])
             {[ "Score" := "rating"; "Year" := "release_year";
                "Name" := "title" ]})
  = ["title"; "release_year"; "rating"].
Proof.
  destruct (apply_mapping_schema_order
              (mkDF 1 [ ("Score", [Sample.num 7]); ("extra", [CNull]);
                        ("Year", [Sample.num 1999]); ("Name", [CStr "Ran"]) ])
              {[ "Score" := "rating"; "Year" := "release_year";
                 "Name" := "title" ]}) as [Heq _].
  - apply (bool_decide_unpack _). by vm_compute.
  - rewrite Heq. by vm_compute.
Defined.

End ProjectionFacts.

(** ** Frames: more on columns, rows and well-formedness *)

Module FrameMore.

Import Frame FrameFacts DedupFacts.

Implicit Types (df : DataFrame) (name : string) (v s : list cell).

Lemma getitem_elem name df s :
  getitem name df = Some s → (name, s) ∈ df_cols df.
Proof.
  unfold getitem.
  destruct (filter _ _) as [|c [|]] eqn:E; try done. intros [= <-].
  assert (Hc : c ∈ filter (λ c : string * list cell, c.1 = name) (df_cols df))
    by (rewrite E; left).
  apply list_elem_of_filter in Hc as [<- Hc]. by destruct c.
Qed.

(** Writing back what a column holds changes nothing. *)
Lemma setitem_getitem_id name df s :
  getitem name df = Some s → setitem name s df = df.
Proof.
  intros Hs. pose proof (getitem_Some_elem _ _ _ Hs) as Hin.
  unfold setitem. rewrite bool_decide_eq_true_2 by done.
  destruct df as [n cols]. simpl. f_equal.
  unfold getitem in Hs. simpl in Hs.
  rewrite <- (list_fmap_id cols) at 2. apply list_fmap_ext.
  intros i c Hc. simpl. case_bool_decide as Hn; [|done].
  destruct (filter _ cols) as [|c0 [|]] eqn:E; try done.
  injection Hs as <-.
  assert (Hc' : c ∈ filter (λ c : string * list cell, c.1 = name) cols).
  { apply list_elem_of_filter. split; [done|]. by eapply list_elem_of_lookup_2. }
  rewrite E in Hc'. apply list_elem_of_singleton in Hc' as ->. by destruct c0.
Qed.

Lemma filter_label_map_data name (f : list cell → list cell)
    (cols : list (string * list cell)) :
  filter (λ c : string * list cell, c.1 = name)
    ((λ c : string * list cell, (c.1, f c.2)) <$> cols)
  = (λ c : string * list cell, (c.1, f c.2))
      <$> filter (λ c : string * list cell, c.1 = name) cols.
Proof.
  induction cols as [|c r IH]; [done|]. csimpl.
  rewrite !filter_cons. simpl. destruct (decide (c.1 = name)); csimpl;
    by rewrite IH.
Qed.

(** [drop_duplicates] filters every column by the same mask. *)
Lemma getitem_drop_duplicates subset df name :
  getitem name (drop_duplicates subset df)
  = filter_mask (keep_first (row_keys subset df)) <$> getitem name df.
Proof.
  unfold getitem, drop_duplicates. simpl.
  rewrite filter_label_map_data.
  by destruct (filter _ (df_cols df)) as [|c [|]].
Qed.

Lemma getitem_wf name df s :
  wf df → getitem name df = Some s → length s = df_len df.
Proof.
  intros Hwf Hs. apply getitem_elem in Hs.
  unfold wf in Hwf. rewrite Forall_forall in Hwf. by apply (Hwf (name, s)).
Qed.

Lemma setitem_wf name v df :
  wf df → length v = df_len df → wf (setitem name v df).
Proof.
  intros Hwf Hv. unfold wf, setitem in *. case_bool_decide; simpl.
  - apply Forall_fmap. eapply Forall_impl; [exact Hwf|].
    intros c Hc. simpl. by case_bool_decide.
  - apply Forall_app. split; [done|]. by constructor.
Qed.

Lemma filter_mask_le {A} (mask : list bool) (l : list A) :
  length (filter_mask mask l) ≤ length l.
Proof. apply sublist_length, filter_mask_sublist. Qed.

Lemma drop_duplicates_wf subset df :
  wf df → wf (drop_duplicates subset df).
Proof.
  intros Hwf. unfold wf, drop_duplicates in *. simpl.
  apply Forall_fmap. eapply Forall_impl; [exact Hwf|].
  intros c Hc. simpl. apply filter_mask_length. by rewrite length_seq.
Qed.

Lemma drop_duplicates_len subset df :
  df_len (drop_duplicates subset df) ≤ df_len df.
Proof.
  unfold drop_duplicates. simpl.
  etrans; [apply filter_mask_le|]. by rewrite length_seq.
Qed.

(** A mask that keeps everything. *)
Lemma filter_mask_all_true {A} (mask : list bool) (l : list A) :
  Forall (λ b, b = true) mask → length l ≤ length mask →
  filter_mask mask l = l.
Proof.
  revert l. induction mask as [|b m IH]; intros [|x r] Hall Hlen;
    simpl in *; try done; [lia|].
  apply Forall_cons in Hall as [-> Hall]. f_equal. apply IH; [done | lia].
Qed.

Lemma keep_first_from_NoDup {K} `{EqDecision K} (seen keys : list K) :
  NoDup keys → (∀ k, k ∈ keys → k ∉ seen) →
  Forall (λ b, b = true) (keep_first_from seen keys).
Proof.
  revert seen. induction keys as [|k r IH]; intros seen Hnd Hnew; simpl;
    [constructor|].
  apply NoDup_cons in Hnd as [Hk Hnd].
  rewrite bool_decide_eq_false_2 by (apply Hnew; left).
  constructor; [done|]. apply IH; [done|].
  intros k' Hk'. apply not_elem_of_cons. split.
  - intros ->. done.
  - apply Hnew. by right.
Qed.

(** On a well-formed table a second [drop_duplicates] on the same key
    finds every mask bit set. *)
Lemma drop_duplicates_twice subset df :
  wf df →
  drop_duplicates subset (drop_duplicates subset df)
  = drop_duplicates subset df.
Proof.
  intros Hwf.
  set (d := drop_duplicates subset df).
  assert (Hall : Forall (λ b, b = true) (keep_first (row_keys subset d))).
  { apply keep_first_from_NoDup; [apply drop_duplicates_NoDup|].
    intros k _. apply not_elem_of_nil. }
  assert (Hlen : length (keep_first (row_keys subset d)) = df_len d)
    by apply mask_length.
  assert (Hwfd : wf d) by (by apply drop_duplicates_wf).
  unfold drop_duplicates at 1. destruct d as [n cols] eqn:Ed. simpl in *.
  f_equal.
  - rewrite filter_mask_all_true; [by rewrite length_seq | done |].
    rewrite length_seq. lia.
  - rewrite <- (list_fmap_id cols) at 2. apply list_fmap_ext.
    intros i [l data] Hc. simpl. f_equal.
    apply filter_mask_all_true; [done|].
    unfold wf in Hwfd. rewrite Forall_forall in Hwfd. simpl in Hwfd.
    pose proof (Hwfd (l, data) ltac:(by eapply list_elem_of_lookup_2)) as Hl.
    simpl in Hl. lia.
Qed.

End FrameMore.

(** ** Record normaliser: the finished table *)

Module NormalizerMore.

Import Frame FrameFacts FrameMore Normalizer NormalizerFacts.

(** [median] is undefined exactly on a column without numbers. *)
Lemma median_None_iff (s : list cell) : median s = None ↔ nums s = [].
Proof.
  unfold median. cbv zeta.
  assert (Hlen : length (merge_sort Qcle (nums s)) = length (nums s))
    by (by rewrite merge_sort_Permutation).
  set (v := merge_sort Qcle (nums s)) in *.
  case_bool_decide as H0.
  - split; [|done]. intros _. apply length_zero_iff_nil. lia.
  - assert (Hpos : 0 < length v) by lia.
    assert (Hmid : length v / 2 < length v) by (apply Nat.div_lt; lia).
    split; [|intros Hnil; rewrite Hnil in Hlen; simpl in Hlen; lia].
    intros Hnone. exfalso.
    destruct (Nat.odd (length v)).
    + destruct (lookup_lt_is_Some_2 v _ Hmid) as [x Hx]. congruence.
    + destruct (lookup_lt_is_Some_2 v (length v / 2 - 1) ltac:(lia))
        as [a Ha].
      destruct (lookup_lt_is_Some_2 v _ Hmid) as [b Hb].
      rewrite Ha, Hb in Hnone. done.
Qed.

Lemma nums_nil_iff (s : list cell) :
  nums s = [] ↔ Forall (λ c, ∀ q, c ≠ CNum q) s.
Proof.
  unfold nums. induction s as [|c r IH]; simpl.
  - split; [constructor | done].
  - destruct c as [|q|t]; simpl.
    + rewrite IH. split; [by constructor | by intros [_ ?]%Forall_cons_1].
    + split; [done|]. intros [H _]%Forall_cons_1. by destruct (H q).
    + rewrite IH. split; [by constructor | by intros [_ ?]%Forall_cons_1].
Qed.

(** X13. The de-duplication step of [_validate_and_clean] settles in one
    pass on a well-formed table: applied to its own result it removes
    nothing, and when both [title] and [release_year] are labels, no two
    rows of its result agree on their (title, release_year) cells. *)
Theorem dedup_step_idempotent df :
  wf df →
  dedup_step (dedup_step df) = dedup_step df
  ∧ ("title" ∈ columns df ∧ "release_year" ∈ columns df →
       NoDup (row_keys ["title"; "release_year"] (dedup_step df))).
Proof.
  intros Hwf. split.
  - unfold dedup_step at 1. rewrite dedup_step_columns.
    unfold dedup_step. case_bool_decide as Hboth; [|done].
    by apply drop_duplicates_twice.
  - intros Hboth. unfold dedup_step. rewrite bool_decide_eq_true_2 by done.
    apply DedupFacts.drop_duplicates_NoDup.
Qed.

Lemma dedup_step_idempotent_witness :
  df_len Sample.heat_twice = 3
  ∧ df_len (dedup_step Sample.heat_twice) = 2
  ∧ dedup_step (dedup_step Sample.heat_twice) = dedup_step Sample.heat_twice.
Proof.
  assert (Hwf : wf Sample.heat_twice)
    by (apply (bool_decide_unpack _); by vm_compute).
  destruct (dedup_step_idempotent Sample.heat_twice Hwf) as [Hidem _].
  split; [done|]. split; [by vm_compute | exact Hidem].
Defined.

Section WithPandas.

Variable to_numeric_str : string → option Qc.
Variable str_of_num : Qc → string.

Local Abbreviation to_numeric := (to_numeric to_numeric_str).
Local Abbreviation step_median := (step_median to_numeric_str).
Local Abbreviation step_zero := (step_zero to_numeric_str).
Local Abbreviation step_release_year := (step_release_year to_numeric_str).
Local Abbreviation step_genres := (step_genres str_of_num).
Local Abbreviation validate_and_clean :=
  (validate_and_clean to_numeric_str str_of_num).
Local Abbreviation genres_cell :=
  (λ c : cell, CStr (genres_lambda (astype_str str_of_num c))).

(** A coerced cell is a number or missing, and coercing it again changes
    nothing. *)
Lemma to_numeric_idem c : to_numeric (to_numeric c) = to_numeric c.
Proof. by destruct (to_numeric_cases to_numeric_str c) as [->|[q ->]]. Qed.

Lemma fillna_zero_numbers (s : list cell) :
  all_numbers (fillna (Some 0%Qc) (to_numeric <$> s)).
Proof.
  unfold all_numbers, fillna. rewrite !Forall_fmap.
  apply Forall_forall. intros c _. simpl.
  destruct (to_numeric_cases to_numeric_str c) as [->|[q ->]]; by eexists.
Qed.

Lemma fillna_median_numbers_or_missing (s : list cell) :
  let s' := fillna (median (to_numeric <$> s)) (to_numeric <$> s) in
  (all_numbers s' ∧ nums (to_numeric <$> s) ≠ [])
  ∨ (all_missing s' ∧ nums (to_numeric <$> s) = []).
Proof.
  cbv zeta. destruct (median (to_numeric <$> s)) as [m|] eqn:Hm.
  - left. split.
    + unfold all_numbers, fillna. rewrite !Forall_fmap.
      apply Forall_forall. intros c _. simpl.
      destruct (to_numeric_cases to_numeric_str c) as [->|[q ->]];
        by eexists.
    + intros Hnil. apply median_None_iff in Hnil. congruence.
  - right. apply median_None_iff in Hm. split; [|done]. simpl.
    apply nums_nil_iff in Hm. unfold all_missing.
    rewrite Forall_fmap in Hm |- *. eapply Forall_impl; [exact Hm|].
    intros c Hc. simpl in *.
    destruct (to_numeric_cases to_numeric_str c) as [->|[q Hq]]; [done|].
    by destruct (Hc q).
Qed.

(** The columns of the normalised table, from those of the table after
    de-duplication. *)
Lemma final_columns df out :
  validate_and_clean df = Some out →
  (∀ name, name ∈ ["rating"; "runtime"] → name ∈ columns (dedup_step df) →
     ∃ s, getitem name (dedup_step df) = Some s
       ∧ getitem name out
         = Some (fillna (median (to_numeric <$> s)) (to_numeric <$> s)))
  ∧ (∀ name, name ∈ ["vote_count"; "popularity"] →
       name ∈ columns (dedup_step df) →
       ∃ s, getitem name (dedup_step df) = Some s
         ∧ getitem name out = Some (fillna (Some 0%Qc) (to_numeric <$> s)))
  ∧ ("release_year" ∈ columns (dedup_step df) →
       ∃ s, getitem "release_year" (dedup_step df) = Some s
         ∧ getitem "release_year" out = Some (to_numeric <$> s)
         ∧ forallb int_or_null (to_numeric <$> s) = true)
  ∧ ("genres" ∈ columns (dedup_step df) →
       ∃ s, getitem "genres" (dedup_step df) = Some s
         ∧ getitem "genres" out = Some (genres_cell <$> s))
  ∧ ("movie_id" ∉ columns (dedup_step df) →
       getitem "movie_id" out = Some (movie_ids (df_len out)))
  ∧ (∀ n, n ∉ series_labels → n ∈ columns (dedup_step df) →
       getitem n out = getitem n (dedup_step df)).
Proof.
  intros Hv.
  destruct (validate_and_clean_shape _ _ _ _ Hv) as [Hlen _].
  destruct (validate_and_clean_stages _ _ _ _ Hv)
    as (d1 & d2 & d3 & d4 & d5 & H1 & H2 & H3 & H4 & H5 & H6).
  destruct (step_median_spec _ _ _ _ H1) as [E1 S1].
  destruct (step_zero_spec _ _ _ _ H2) as [E2 S2].
  destruct (step_median_spec _ _ _ _ H3) as [E3 S3].
  destruct (step_release_year_spec _ _ _ H4) as [E4 S4].
  destruct (step_zero_spec _ _ _ _ H5) as [E5 S5].
  destruct (step_movie_id_spec d5) as (L6 & G6 & C6 & F6).
  destruct (step_genres_spec _ _ _ H6) as [E7 S7].
  pose proof (same_except_getitem _ _ _ E1) as G1.
  pose proof (same_except_getitem _ _ _ E2) as G2.
  pose proof (same_except_getitem _ _ _ E3) as G3.
  pose proof (same_except_getitem _ _ _ E4) as G4.
  pose proof (same_except_getitem _ _ _ E5) as G5.
  pose proof (same_except_getitem _ _ _ E7) as G7.
  pose proof (same_except_columns _ _ _ E1) as K1.
  pose proof (same_except_columns _ _ _ E2) as K2.
  pose proof (same_except_columns _ _ _ E3) as K3.
  pose proof (same_except_columns _ _ _ E4) as K4.
  pose proof (same_except_columns _ _ _ E5) as K5.
  split; [|split; [|split; [|split; [|split]]]].
  - intros name Hname Hin.
    apply elem_of_cons in Hname as [->|Hname];
      [|apply list_elem_of_singleton in Hname as ->].
    + destruct (S1 Hin) as (s & Hs & Hs1). exists s. split; [done|].
      by rewrite G7, G6, G5, G4, G3, G2, Hs1 by done.
    + assert (Hd2 : "runtime" ∈ columns d2) by (by rewrite K2, K1).
      destruct (S3 Hd2) as (s & Hs & Hs1).
      rewrite G2, G1 in Hs by done. exists s. split; [done|].
      by rewrite G7, G6, G5, G4, Hs1 by done.
  - intros name Hname Hin.
    apply elem_of_cons in Hname as [->|Hname];
      [|apply list_elem_of_singleton in Hname as ->].
    + assert (Hd1 : "vote_count" ∈ columns d1) by (by rewrite K1).
      destruct (S2 Hd1) as (s & Hs & Hs1).
      rewrite G1 in Hs by done. exists s. split; [done|].
      by rewrite G7, G6, G5, G4, G3, Hs1 by done.
    + assert (Hd4 : "popularity" ∈ columns d4)
        by (by rewrite K4, K3, K2, K1).
      destruct (S5 Hd4) as (s & Hs & Hs1).
      rewrite G4, G3, G2, G1 in Hs by done. exists s. split; [done|].
      by rewrite G7, G6, Hs1 by done.
  - intros Hin.
    assert (Hd3 : "release_year" ∈ columns d3) by (by rewrite K3, K2, K1).
    destruct (S4 Hd3) as (s & Hs & Hs1 & Hint).
    rewrite G3, G2, G1 in Hs by done. exists s. split; [done|].
    split; [|done]. by rewrite G7, G6, G5, Hs1 by done.
  - intros Hin.
    assert (Hd6 : "genres" ∈ columns (step_movie_id d5)).
    { apply C6. left. by rewrite K5, K4, K3, K2, K1. }
    destruct (S7 Hd6) as (s & Hs & Hs1).
    rewrite G6, G5, G4, G3, G2, G1 in Hs by done. by exists s.
  - intros Hin.
    assert (Hd5 : "movie_id" ∉ columns d5) by (by rewrite K5, K4, K3, K2, K1).
    destruct (F6 Hd5) as [_ Hids].
    rewrite G7, Hids by done. f_equal. f_equal.
    rewrite Hlen, <- (same_except_len _ _ _ E1), <- (same_except_len _ _ _ E2),
      <- (same_except_len _ _ _ E3), <- (same_except_len _ _ _ E4).
    by rewrite (same_except_len _ _ _ E5).
  - intros n Hn Hin. unfold series_labels in Hn.
    repeat (apply not_elem_of_cons in Hn as [? Hn]).
    destruct (decide (n = "movie_id")) as [->|Hid].
    + assert (Hd5 : "movie_id" ∈ columns d5)
        by (by rewrite K5, K4, K3, K2, K1).
      rewrite G7 by done. unfold step_movie_id.
      rewrite bool_decide_eq_false_2 by (by intros Hq).
      by rewrite G5, G4, G3, G2, G1 by done.
    + by rewrite G7, G6, G5, G4, G3, G2, G1 by done.
Qed.

Lemma getitem_out_in_dedup df out name s :
  validate_and_clean df = Some out →
  name ≠ "movie_id" → getitem name out = Some s →
  name ∈ columns (dedup_step df).
Proof.
  intros Hv Hn Hs.
  destruct (validate_and_clean_shape _ _ _ _ Hv) as [_ Hcols].
  apply getitem_Some_elem, Hcols in Hs.
  destruct Hs as [Hs|Hs]; [exact Hs | contradiction].
Qed.

(** X14. In a normalised table [vote_count] and [popularity] hold only
    numbers, with no missing cell; [rating] and [runtime] hold only
    numbers, or are missing throughout when no cell of the column parsed;
    [release_year] holds whole numbers or missing cells; [genres] holds
    text; and [movie_id] is always a column. *)
Theorem normalised_columns_typed df out :
  validate_and_clean df = Some out →
  (∀ name s, name ∈ ["vote_count"; "popularity"] →
     getitem name out = Some s → all_numbers s)
  ∧ (∀ name s, name ∈ ["rating"; "runtime"] →
       getitem name out = Some s → all_numbers s ∨ all_missing s)
  ∧ (∀ s, getitem "release_year" out = Some s →
       Forall (λ c, c = CNull ∨ ∃ q, c = CNum q ∧ is_integer q = true) s)
  ∧ (∀ s, getitem "genres" out = Some s → Forall (λ c, ∃ y, c = CStr y) s)
  ∧ "movie_id" ∈ columns out.
Proof.
  intros Hv.
  destruct (final_columns _ _ Hv) as (Hmed & Hzero & Hyear & Hgen & _ & _).
  split; [|split; [|split; [|split]]].
  - intros name s Hname Hs.
    assert (Hin : name ∈ columns (dedup_step df)).
    { eapply getitem_out_in_dedup; [done| |done].
      intros ->. apply elem_of_cons in Hname as [?|Hname]; [done|].
      by apply list_elem_of_singleton in Hname. }
    destruct (Hzero name Hname Hin) as (s0 & _ & Hout).
    rewrite Hout in Hs. injection Hs as <-. apply fillna_zero_numbers.
  - intros name s Hname Hs.
    assert (Hin : name ∈ columns (dedup_step df)).
    { eapply getitem_out_in_dedup; [done| |done].
      intros ->. apply elem_of_cons in Hname as [?|Hname]; [done|].
      by apply list_elem_of_singleton in Hname. }
    destruct (Hmed name Hname Hin) as (s0 & _ & Hout).
    rewrite Hout in Hs. injection Hs as <-.
    destruct (fillna_median_numbers_or_missing s0) as [[? _]|[? _]];
      [by left | by right].
  - intros s Hs.
    assert (Hin : "release_year" ∈ columns (dedup_step df))
      by (by eapply getitem_out_in_dedup).
    destruct (Hyear Hin) as (s0 & _ & Hout & Hint).
    rewrite Hout in Hs. injection Hs as <-.
    apply Forall_forall. intros c Hc.
    rewrite forallb_forall in Hint.
    assert (Hc' : int_or_null c = true)
      by (by apply Hint, list_elem_of_In).
    apply list_elem_of_fmap in Hc as (c0 & -> & _).
    destruct (to_numeric_cases to_numeric_str c0) as [->|[q Hq]]; [by left|].
    right. exists q. rewrite Hq in Hc' |- *.
    split; [done | by apply int_or_null_whole].
  - intros s Hs.
    assert (Hin : "genres" ∈ columns (dedup_step df))
      by (by eapply getitem_out_in_dedup).
    destruct (Hgen Hin) as (s0 & _ & Hout).
    rewrite Hout in Hs. injection Hs as <-.
    apply Forall_fmap, Forall_forall. intros c _. simpl. by eexists.
  - destruct (validate_and_clean_shape _ _ _ _ Hv) as [_ Hcols].
    apply Hcols. by right.
Qed.








Lemma length_fillna (m : option Qc) (s : list cell) :
  length (fillna m s) = length s.
Proof. destruct m; simpl; [by rewrite length_fmap | done]. Qed.

Lemma step_median_wf name df df' :
  wf df → step_median name df = Some df' → wf df'.
Proof.
  intros Hwf. unfold Normalizer.step_median.
  case_bool_decide as Hin; [|by intros [= <-]].
  unfold coerce_numeric, col_median, fillna_inplace.
  destruct (getitem name df) as [s|] eqn:Hs; simpl; [|done].
  rewrite (getitem_setitem_eq _ _ _ _ Hs). simpl. intros [= <-].
  pose proof (getitem_wf _ _ _ Hwf Hs) as Hl.
  apply setitem_wf; [apply setitem_wf; [done|]|].
  - by rewrite length_fmap.
  - by rewrite ?length_fillna, ?length_fmap, ?df_len_setitem.
Qed.

Lemma step_zero_wf name df df' :
  wf df → step_zero name df = Some df' → wf df'.
Proof.
  intros Hwf. unfold Normalizer.step_zero.
  case_bool_decide as Hin; [|by intros [= <-]].
  unfold coerce_numeric, fillna_inplace.
  destruct (getitem name df) as [s|] eqn:Hs; simpl; [|done].
  rewrite (getitem_setitem_eq _ _ _ _ Hs). simpl. intros [= <-].
  pose proof (getitem_wf _ _ _ Hwf Hs) as Hl.
  apply setitem_wf; [apply setitem_wf; [done|]|].
  - by rewrite length_fmap.
  - by rewrite ?length_fillna, ?length_fmap, ?df_len_setitem.
Qed.

Lemma step_release_year_wf df df' :
  wf df → step_release_year df = Some df' → wf df'.
Proof.
  intros Hwf. unfold Normalizer.step_release_year.
  case_bool_decide as Hin; [|by intros [= <-]].
  unfold coerce_numeric, astype_Int64.
  destruct (getitem "release_year" df) as [s|] eqn:Hs; simpl; [|done].
  rewrite (getitem_setitem_eq _ _ _ _ Hs). simpl.
  destruct (forallb int_or_null (to_numeric <$> s)); [|done]. intros [= <-].
  pose proof (getitem_wf _ _ _ Hwf Hs) as Hl.
  apply setitem_wf; [apply setitem_wf; [done|]|].
  - by rewrite length_fmap.
  - by rewrite ?length_fmap, ?df_len_setitem.
Qed.

Lemma step_genres_wf df df' :
  wf df → step_genres df = Some df' → wf df'.
Proof.
  intros Hwf. unfold Normalizer.step_genres.
  case_bool_decide as Hin; [|by intros [= <-]].
  destruct (getitem "genres" df) as [s|] eqn:Hs; simpl; [|done].
  intros [= <-]. apply setitem_wf; [done|].
  rewrite length_fmap. by eapply getitem_wf.
Qed.

Lemma step_movie_id_wf df : wf df → wf (step_movie_id df).
Proof.
  intros Hwf. unfold step_movie_id. case_bool_decide; [|done].
  apply setitem_wf; [done|]. unfold movie_ids.
  by rewrite length_fmap, length_seq.
Qed.

Lemma dedup_step_wf df : wf df → wf (dedup_step df).
Proof.
  intros Hwf. unfold dedup_step. case_bool_decide; [|done].
  by apply drop_duplicates_wf.
Qed.

Lemma apply_mapping_wf df (mapping : gmap string string) :
  wf df → wf (apply_mapping df mapping).
Proof.
  intros Hwf. unfold wf in *. rewrite Forall_forall in Hwf.
  apply Forall_forall. intros [c data] Hc.
  apply ProjectionFacts.elem_of_apply_mapping in Hc as (_ & raw & Hraw & _).
  simpl. apply (Hwf _ Hraw).
Qed.

(** X16. Projection and normalisation keep a table well formed (every
    column has one cell per row); normalisation never adds a row, and
    keeps the row count when [title] or [release_year] is absent. *)
Theorem well_formed_preserved df :
  wf df →
  (∀ mapping, wf (apply_mapping df mapping))
  ∧ (∀ out, validate_and_clean df = Some out →
       wf out ∧ df_len out ≤ df_len df
       ∧ (¬ ("title" ∈ columns df ∧ "release_year" ∈ columns df) →
            df_len out = df_len df))
  ∧ (∀ source custom out,
       load_and_map to_numeric_str str_of_num df source custom = Some out →
       wf out ∧ df_len out ≤ df_len df).
Proof.
  intros Hwf.
  assert (Hval : ∀ d out, wf d → validate_and_clean d = Some out →
            wf out ∧ df_len out ≤ df_len d
            ∧ (¬ ("title" ∈ columns d ∧ "release_year" ∈ columns d) →
                 df_len out = df_len d)).
  { intros d out Hd Hv.
    destruct (validate_and_clean_shape _ _ _ _ Hv) as [Hlen _].
    destruct (validate_and_clean_stages _ _ _ _ Hv)
      as (d1 & d2 & d3 & d4 & d5 & H1 & H2 & H3 & H4 & H5 & H6).
    split; [|split].
    - eapply step_genres_wf; [|exact H6]. apply step_movie_id_wf.
      eapply step_zero_wf; [|exact H5].
      eapply step_release_year_wf; [|exact H4].
      eapply step_median_wf; [|exact H3].
      eapply step_zero_wf; [|exact H2].
      eapply step_median_wf; [|exact H1].
      by apply dedup_step_wf.
    - rewrite Hlen. unfold dedup_step. case_bool_decide; [|done].
      apply drop_duplicates_len.
    - intros Hnot. rewrite Hlen. unfold dedup_step.
      by rewrite bool_decide_eq_false_2. }
  split; [intros m; by apply apply_mapping_wf|]. split; [intros out; by apply Hval|].
  intros source custom out Hv. unfold load_and_map in Hv.
  destruct (Hval _ _ (apply_mapping_wf df _ Hwf) Hv) as (Hw & Hle & _).
  split; [done|]. exact Hle.
Qed.

End WithPandas.

Lemma normalised_columns_typed_witness :
  Sample.validate_and_clean Sample.gaps = Some Sample.gaps_clean
  ∧ "movie_id" ∈ columns Sample.gaps_clean.
Proof.
  assert (H : Sample.validate_and_clean Sample.gaps = Some Sample.gaps_clean)
    by (apply (bool_decide_unpack _); by vm_compute).
  split; [exact H|].
  by destruct (normalised_columns_typed Sample.to_numeric_str
                 Sample.str_of_num _ _ H) as (_ & _ & _ & _ & ?).
Defined.

Lemma well_formed_preserved_witness :
  wf Sample.gaps
  ∧ wf Sample.gaps_clean ∧ df_len Sample.gaps_clean ≤ df_len Sample.gaps.
Proof.
  assert (H : wf Sample.gaps) by (apply (bool_decide_unpack _); by vm_compute).
  assert (Hv : Sample.validate_and_clean Sample.gaps = Some Sample.gaps_clean)
    by (apply (bool_decide_unpack _); by vm_compute).
  split; [exact H|].
  destruct (well_formed_preserved Sample.to_numeric_str Sample.str_of_num
              Sample.gaps H) as (_ & Hval & _).
  destruct (Hval _ Hv) as (? & ? & _). by split.
Defined.

(** The causes at work: a repeated label, a year and a half, a year of
    2^63; the largest 64-bit year passes. *)
Example validate_and_clean_raises :
  Sample.validate_and_clean
    (mkDF 1 [("rating", [Sample.num 7]); ("rating", [Sample.num 8])]) = None
  ∧ Sample.validate_and_clean
      (mkDF 1 [("release_year", [CNum (Q2Qc (3999 # 2))])]) = None
  ∧ Sample.validate_and_clean
      (mkDF 1 [("release_year", [Sample.num (2 ^ 63)])]) = None
  ∧ Sample.validate_and_clean
      (mkDF 1 [("release_year", [Sample.num (2 ^ 63 - 1)])]) ≠ None.
Proof. repeat split; by vm_compute. Qed.

End NormalizerMore.

(** ** Text helpers and the genres cleaner *)

Module TextFacts.

Import Text Normalizer.

Lemma occurs_cons d c s : occurs d (String c s) ↔ d = c ∨ occurs d s.
Proof. unfold occurs. simpl. apply elem_of_cons. Qed.

Lemma occurs_empty d : ¬ occurs d EmptyString.
Proof. unfold occurs. simpl. apply not_elem_of_nil. Qed.

Lemma occurs_remove_char c d s :
  occurs d (remove_char c s) ↔ d ≠ c ∧ occurs d s.
Proof.
  induction s as [|a r IH]; simpl.
  - split; [by intros ?%occurs_empty | by intros [_ ?%occurs_empty]].
  - case_bool_decide as Hac.
    + subst a. rewrite IH, occurs_cons. intuition congruence.
    + rewrite !occurs_cons, IH. intuition congruence.
Qed.

Lemma remove_char_absent c s : ¬ occurs c s → remove_char c s = s.
Proof.
  induction s as [|a r IH]; simpl; [done|].
  rewrite occurs_cons. intros Hno. case_bool_decide as Hac.
  - subst a. destruct Hno. by left.
  - f_equal. apply IH. intros ?. apply Hno. by right.
Qed.

Lemma occurs_lstrip d s : occurs d (lstrip s) → occurs d s.
Proof.
  induction s as [|a r IH]; simpl; [done|].
  destruct (is_space a); [|done]. intros ?%IH. apply occurs_cons. by right.
Qed.

Lemma occurs_rstrip d s : occurs d (rstrip s) → occurs d s.
Proof.
  induction s as [|a r IH]; simpl; [done|].
  destruct (rstrip r) as [|b r'].
  - destruct (is_space a); [by intros ?%occurs_empty|].
    rewrite !occurs_cons. intros [?|?%occurs_empty]; [by left | done].
  - rewrite !occurs_cons. intros [?|H]; [by left|]. right. apply IH.
    by apply occurs_cons.
Qed.

Lemma occurs_strip d s : occurs d (strip s) → occurs d s.
Proof. unfold strip. by intros ?%occurs_rstrip%occurs_lstrip. Qed.

Lemma rstrip_idem s : rstrip (rstrip s) = rstrip s.
Proof.
  induction s as [|a r IH]; simpl; [done|].
  destruct (rstrip r) as [|b r'] eqn:Hr.
  - destruct (is_space a) eqn:Ha; simpl; [done|]. by rewrite Ha.
  - change (rstrip (String a (String b r'))) with
      (match rstrip (String b r') with
       | EmptyString =>
           if is_space a then EmptyString else String a EmptyString
       | r0 => String a r0
       end).
    by rewrite IH.
Qed.

(** What [lstrip] leaves is empty or starts with a character that is not
    white space. *)
Lemma lstrip_head s :
  lstrip s = EmptyString
  ∨ ∃ a r, lstrip s = String a r ∧ is_space a = false.
Proof.
  induction s as [|a r IH]; simpl; [by left|].
  destruct (is_space a) eqn:Ha; [done|]. right. by exists a, r.
Qed.

Lemma rstrip_keeps_head a r :
  is_space a = false → ∃ r', rstrip (String a r) = String a r'.
Proof.
  intros Ha. simpl. destruct (rstrip r) as [|b r'].
  - rewrite Ha. by eexists.
  - by eexists.
Qed.

Lemma lstrip_strip s : lstrip (strip s) = strip s.
Proof.
  unfold strip. destruct (lstrip_head s) as [->|(a & r & -> & Ha)]; [done|].
  destruct (rstrip_keeps_head a r Ha) as [r' ->]. simpl. by rewrite Ha.
Qed.

Lemma strip_idem s : strip (strip s) = strip s.
Proof.
  unfold strip at 1. rewrite lstrip_strip. unfold strip. apply rstrip_idem.
Qed.

Lemma genres_lambda_unfold x :
  genres_lambda x
  = strip (remove_char "'" (remove_char "]" (remove_char "[" x))).
Proof. done. Qed.

Lemma genres_lambda_idem x : genres_lambda (genres_lambda x) = genres_lambda x.
Proof.
  assert (H1 : ¬ occurs "[" (genres_lambda x)).
  { rewrite genres_lambda_unfold. intros H%occurs_strip.
    apply occurs_remove_char in H as [_ H].
    apply occurs_remove_char in H as [_ H].
    by apply occurs_remove_char in H as [? _]. }
  assert (H2 : ¬ occurs "]" (genres_lambda x)).
  { rewrite genres_lambda_unfold. intros H%occurs_strip.
    apply occurs_remove_char in H as [_ H].
    by apply occurs_remove_char in H as [? _]. }
  assert (H3 : ¬ occurs "'" (genres_lambda x)).
  { rewrite genres_lambda_unfold. intros H%occurs_strip.
    by apply occurs_remove_char in H as [? _]. }
  rewrite (genres_lambda_unfold (genres_lambda x)).
  rewrite (remove_char_absent "[" _ H1), (remove_char_absent "]" _ H2),
    (remove_char_absent "'" _ H3).
  rewrite genres_lambda_unfold. apply strip_idem.
Qed.

(** X17. The text the genres cleaner returns holds no square bracket and
    no single quote, has no white space at either end (nothing is left
    for [lstrip] or [rstrip] to remove, the no-break space and next line
    included), and is left as it is when cleaned again. *)
Theorem genres_lambda_clean x :
  ¬ occurs "[" (genres_lambda x)
  ∧ ¬ occurs "]" (genres_lambda x)
  ∧ ¬ occurs "'" (genres_lambda x)
  ∧ lstrip (genres_lambda x) = genres_lambda x
  ∧ rstrip (genres_lambda x) = genres_lambda x
  ∧ genres_lambda (genres_lambda x) = genres_lambda x.
Proof.
  assert (H1 : ¬ occurs "[" (genres_lambda x)).
  { rewrite genres_lambda_unfold. intros H%occurs_strip.
    apply occurs_remove_char in H as [_ H].
    apply occurs_remove_char in H as [_ H].
    by apply occurs_remove_char in H as [? _]. }
  assert (H2 : ¬ occurs "]" (genres_lambda x)).
  { rewrite genres_lambda_unfold. intros H%occurs_strip.
    apply occurs_remove_char in H as [_ H].
    by apply occurs_remove_char in H as [? _]. }
  assert (H3 : ¬ occurs "'" (genres_lambda x)).
  { rewrite genres_lambda_unfold. intros H%occurs_strip.
    by apply occurs_remove_char in H as [? _]. }
  split; [done|]. split; [done|]. split; [done|].
  split; [rewrite genres_lambda_unfold; apply lstrip_strip|].
  split; [rewrite genres_lambda_unfold; unfold strip; apply rstrip_idem|].
  apply genres_lambda_idem.
Qed.

(** A bracketed list as pandas prints it loses its brackets and quotes,
    inner spaces stay. *)
Example genres_lambda_list :
  genres_lambda "['Action', 'Drama'] " = "Action, Drama".
Proof. by vm_compute. Qed.

(** White space beyond ASCII goes as well: a trailing no-break space
    (U+00A0) and a leading next line (U+0085). *)
Example genres_lambda_no_break_space :
  genres_lambda
    (String (ascii_of_nat 133) ("Drama" +:+ String (ascii_of_nat 160) ""))
  = "Drama".
Proof. by vm_compute. Qed.

End TextFacts.

(** ** The synthesised identifiers *)

Module IdFacts.

Import Frame Normalizer NormalizerFacts.

Lemma pretty_N_go_head (x : N) (s : string) :
  (0 < x)%N → head_not_zero (pretty_N_go x s).
Proof.
  revert s. induction (N.lt_wf_0 x) as [x _ IH]. intros s Hx.
  rewrite pretty_N_go_step by done.
  destruct (decide (x `div` 10 = 0)%N) as [Hz|Hnz].
  - rewrite Hz, pretty_N_go_0. simpl.
    assert (Hlt : (x < 10)%N) by (by apply N.div_small_iff in Hz).
    rewrite N.mod_small by done.
    assert (x = 1 ∨ x = 2 ∨ x = 3 ∨ x = 4 ∨ x = 5 ∨ x = 6
            ∨ x = 7 ∨ x = 8 ∨ x = 9)%N as Hcases by lia.
    by destruct Hcases as [->|[->|[->|[->|[->|[->|[->|[->| ->]]]]]]]].
  - apply IH; [apply N.div_lt; lia | by apply N.neq_0_lt_0].
Qed.

Lemma pretty_nat_head (n : nat) : 0 < n → head_not_zero (pretty n).
Proof.
  intros Hn. unfold pretty, pretty_nat, pretty, pretty_N.
  case_decide; [lia|]. apply pretty_N_go_head. lia.
Qed.

Lemma iter_zero_inj k1 k2 d1 d2 :
  head_not_zero d1 → head_not_zero d2 →
  Nat.iter k1 (String "0") d1 = Nat.iter k2 (String "0") d2 → d1 = d2.
Proof.
  intros H1 H2. revert k2. induction k1 as [|k1 IH]; intros [|k2]; simpl.
  - done.
  - intros ->. by destruct H1.
  - intros <-. by destruct H2.
  - intros [= Heq]. by apply (IH k2).
Qed.

Lemma length_iter_zero k d :
  String.length (Nat.iter k (String "0") d) = k + String.length d.
Proof. induction k as [|k IH]; simpl; [done | by rewrite IH]. Qed.

#[local] Instance movie_id_token_inj : Inj (=) (=) movie_id_token.
Proof.
  intros i j. unfold movie_id_token, pad5. simpl. intros [= Heq].
  apply iter_zero_inj in Heq; [|apply pretty_nat_head; lia..].
  apply (inj pretty) in Heq. lia.
Qed.

Lemma movie_ids_NoDup n : NoDup (movie_ids n).
Proof.
  assert (Hinj : Inj (=) (=) (λ i, CStr (movie_id_token i)))
    by (intros i j Heq; apply (inj movie_id_token); congruence).
  unfold movie_ids. apply (NoDup_fmap_2 _), NoDup_seq.
Qed.

Section WithPandas.

Variable to_numeric_str : string → option Qc.
Variable str_of_num : Qc → string.

(** X18. When the table has no [movie_id] column, normalisation gives
    every surviving row an identifier of its own: the column has one cell
    per row, no two cells are equal, and row [i] (from zero) holds [MOV]
    followed by [i + 1] in at least five digits. *)
Theorem synthesised_ids_distinct df out :
  validate_and_clean to_numeric_str str_of_num df = Some out →
  "movie_id" ∉ columns df →
  ∃ s, getitem "movie_id" out = Some s
     ∧ length s = df_len out
     ∧ NoDup s
     ∧ ∀ i, i < df_len out →
         ∃ t, s !! i = Some (CStr ("MOV" +:+ t))
            ∧ 5 ≤ String.length t
            ∧ t = pad5 (pretty (i + 1)).
Proof.
  intros Hv Hno.
  destruct (NormalizerMore.final_columns _ _ _ _ Hv)
    as (_ & _ & _ & _ & Hid & _).
  rewrite dedup_step_columns in Hid. specialize (Hid Hno).
  exists (movie_ids (df_len out)). split; [done|].
  split; [unfold movie_ids; by rewrite length_fmap, length_seq|].
  split; [apply movie_ids_NoDup|].
  intros i Hi. exists (pad5 (pretty (i + 1))). split; [|split; [|done]].
  - unfold movie_ids. rewrite list_lookup_fmap, lookup_seq_lt by done.
    done.
  - unfold pad5. rewrite length_iter_zero. lia.
Qed.

End WithPandas.

Lemma synthesised_ids_distinct_witness :
  ∃ s, getitem "movie_id" Sample.gaps_clean = Some s ∧ NoDup s.
Proof.
  assert (Hv : Sample.validate_and_clean Sample.gaps = Some Sample.gaps_clean)
    by (apply (bool_decide_unpack _); by vm_compute).
  assert (Hno : "movie_id" ∉ columns Sample.gaps)
    by (apply (bool_decide_unpack _); by vm_compute).
  destruct (synthesised_ids_distinct Sample.to_numeric_str Sample.str_of_num
              _ _ Hv Hno) as (s & Hs & _ & Hnd & _).
  by exists s.
Defined.

End IdFacts.

(** ** Normalising a normalised table *)

Module Stability.

Import Frame FrameFacts FrameMore Normalizer NormalizerFacts NormalizerMore.

Lemma Forall_filter_mask {A} (P : A → Prop) (mask : list bool) (l : list A) :
  Forall P l → Forall P (filter_mask mask l).
Proof.
  revert l. induction mask as [|b m IH]; intros [|x r] Hall; simpl;
    try constructor.
  apply Forall_cons in Hall as [Hx Hr].
  destruct b; [constructor; [done|]|]; by apply IH.
Qed.

(** De-duplication keeps a single column single and keeps what holds of
    each of its cells. *)
Lemma getitem_dedup_step_Forall (P : cell → Prop) name df s :
  getitem name df = Some s → Forall P s →
  ∃ s', getitem name (dedup_step df) = Some s' ∧ Forall P s'.
Proof.
  intros Hs Hall. unfold dedup_step. case_bool_decide; [|by exists s].
  rewrite getitem_drop_duplicates, Hs. simpl. eexists. split; [done|].
  by apply Forall_filter_mask.
Qed.

Lemma fillna_all_numbers (m : option Qc) (s : list cell) :
  all_numbers s → fillna m s = s.
Proof.
  intros Hall. destruct m as [v|]; simpl; [|done].
  rewrite <- (list_fmap_id s) at 2. apply list_fmap_ext.
  intros i c Hc. simpl.
  unfold all_numbers in Hall. rewrite Forall_forall in Hall.
  by destruct (Hall c (list_elem_of_lookup_2 _ _ _ Hc)) as [q ->].
Qed.

Section WithPandas.

Variable to_numeric_str : string → option Qc.
Variable str_of_num : Qc → string.

Local Abbreviation to_numeric := (to_numeric to_numeric_str).
Local Abbreviation step_median := (step_median to_numeric_str).
Local Abbreviation step_zero := (step_zero to_numeric_str).
Local Abbreviation step_release_year := (step_release_year to_numeric_str).
Local Abbreviation step_genres := (step_genres str_of_num).
Local Abbreviation validate_and_clean :=
  (validate_and_clean to_numeric_str str_of_num).

Lemma to_numeric_settled (s : list cell) :
  Forall (λ c, c = CNull ∨ ∃ q, c = CNum q) s → to_numeric <$> s = s.
Proof.
  intros Hall. rewrite <- (list_fmap_id s) at 2. apply list_fmap_ext.
  intros i c Hc. simpl. rewrite Forall_forall in Hall.
  by destruct (Hall c (list_elem_of_lookup_2 _ _ _ Hc)) as [->|[q ->]].
Qed.

Lemma to_numeric_all_numbers s : all_numbers s → to_numeric <$> s = s.
Proof.
  intros Hall. apply to_numeric_settled.
  eapply Forall_impl; [exact Hall|]. intros c [q ->]. right. by exists q.
Qed.

Lemma to_numeric_all_missing s : all_missing s → to_numeric <$> s = s.
Proof.
  intros Hall. apply to_numeric_settled.
  eapply Forall_impl; [exact Hall|]. intros c ->. by left.
Qed.

Lemma median_all_missing s : all_missing s → median s = None.
Proof.
  intros Hall. apply median_None_iff, nums_nil_iff.
  eapply Forall_impl; [exact Hall|]. by intros c -> q.
Qed.

Lemma step_median_settled name d :
  (name ∈ columns d →
     ∃ s, getitem name d = Some s ∧ (all_numbers s ∨ all_missing s)) →
  step_median name d = Some d.
Proof.
  intros Hcol. unfold Normalizer.step_median.
  case_bool_decide as Hin; [|done].
  destruct (Hcol Hin) as (s & Hs & Hp).
  assert (Htn : to_numeric <$> s = s)
    by (destruct Hp; [by apply to_numeric_all_numbers
                     | by apply to_numeric_all_missing]).
  assert (Hfill : fillna (median s) s = s).
  { destruct Hp as [Hp|Hp]; [by apply fillna_all_numbers|].
    by rewrite (median_all_missing _ Hp). }
  unfold coerce_numeric, col_median, fillna_inplace.
  rewrite Hs. simpl. rewrite Htn, (setitem_getitem_id _ _ _ Hs), Hs. simpl.
  by rewrite Hfill, (setitem_getitem_id _ _ _ Hs).
Qed.

Lemma step_zero_settled name d :
  (name ∈ columns d → ∃ s, getitem name d = Some s ∧ all_numbers s) →
  step_zero name d = Some d.
Proof.
  intros Hcol. unfold Normalizer.step_zero.
  case_bool_decide as Hin; [|done].
  destruct (Hcol Hin) as (s & Hs & Hp).
  unfold coerce_numeric, fillna_inplace.
  rewrite Hs. simpl.
  rewrite (to_numeric_all_numbers _ Hp), (setitem_getitem_id _ _ _ Hs), Hs.
  simpl.
  change ((λ c, match c with CNull => CNum 0%Qc | _ => c end) <$> s)
    with (fillna (Some 0%Qc) s).
  by rewrite (fillna_all_numbers _ _ Hp), (setitem_getitem_id _ _ _ Hs).
Qed.

Lemma step_release_year_settled d :
  ("release_year" ∈ columns d →
     ∃ s, getitem "release_year" d = Some s
       ∧ Forall (λ c, (c = CNull ∨ ∃ q, c = CNum q)
                      ∧ int_or_null c = true) s) →
  step_release_year d = Some d.
Proof.
  intros Hcol. unfold Normalizer.step_release_year.
  case_bool_decide as Hin; [|done].
  destruct (Hcol Hin) as (s & Hs & Hp).
  assert (Htn : to_numeric <$> s = s).
  { apply to_numeric_settled. eapply Forall_impl; [exact Hp|].
    by intros c [? _]. }
  assert (Hint : forallb int_or_null s = true).
  { apply forallb_forall. intros c Hc%list_elem_of_In.
    rewrite Forall_forall in Hp. by destruct (Hp c Hc) as [_ ?]. }
  unfold coerce_numeric, astype_Int64.
  rewrite Hs. simpl. rewrite Htn, (setitem_getitem_id _ _ _ Hs), Hs. simpl.
  by rewrite Hint, (setitem_getitem_id _ _ _ Hs).
Qed.

Lemma step_genres_settled d :
  ("genres" ∈ columns d →
     ∃ s, getitem "genres" d = Some s
       ∧ Forall (λ c, ∃ y, c = CStr y ∧ genres_lambda y = y) s) →
  step_genres d = Some d.
Proof.
  intros Hcol. unfold Normalizer.step_genres.
  case_bool_decide as Hin; [|done].
  destruct (Hcol Hin) as (s & Hs & Hp).
  rewrite Hs. simpl. f_equal.
  rewrite <- (setitem_getitem_id _ _ _ Hs) at 2. f_equal.
  rewrite <- (list_fmap_id s) at 2. apply list_fmap_ext.
  intros i c Hc. simpl. rewrite Forall_forall in Hp.
  destruct (Hp c (list_elem_of_lookup_2 _ _ _ Hc)) as (y & -> & Hy).
  simpl. by rewrite Hy.
Qed.

(** X19. Normalising a normalised table only removes duplicates: every
    cleaning step leaves the table as it is, and what comes back is the
    table after the (title, release_year) de-duplication, which can
    still drop rows because that step ran before the years were
    parsed. *)
Theorem renormalise_only_dedups df out :
  validate_and_clean df = Some out →
  validate_and_clean out = Some (dedup_step out).
Proof.
  intros Hv.
  destruct (final_columns _ _ _ _ Hv) as (Hmed & Hzero & Hyear & Hgen & _ & _).
  destruct (validate_and_clean_shape _ _ _ _ Hv) as [_ Hcols].
  assert (Kd : columns (dedup_step out) = columns out)
    by apply dedup_step_columns.
  assert (Hin_df : ∀ name, name ≠ "movie_id" →
            name ∈ columns (dedup_step out) →
            name ∈ columns (dedup_step df)).
  { intros name Hn Hin. rewrite Kd in Hin.
    by apply Hcols in Hin as [?|?]. }
  assert (Hm : ∀ name, name ∈ ["rating"; "runtime"] →
            step_median name (dedup_step out) = Some (dedup_step out)).
  { intros name Hname. apply step_median_settled. intros Hin.
    assert (Hne : name ≠ "movie_id").
    { intros ->. apply elem_of_cons in Hname as [?|Hname]; [done|].
      by apply list_elem_of_singleton in Hname. }
    destruct (Hmed name Hname (Hin_df _ Hne Hin)) as (s0 & _ & Hout).
    destruct (fillna_median_numbers_or_missing to_numeric_str s0)
      as [[Hp _]|[Hp _]].
    - destruct (getitem_dedup_step_Forall _ _ _ _ Hout Hp) as (s' & ? & ?).
      exists s'. split; [done | by left].
    - destruct (getitem_dedup_step_Forall _ _ _ _ Hout Hp) as (s' & ? & ?).
      exists s'. split; [done | by right]. }
  assert (Hz : ∀ name, name ∈ ["vote_count"; "popularity"] →
            step_zero name (dedup_step out) = Some (dedup_step out)).
  { intros name Hname. apply step_zero_settled. intros Hin.
    assert (Hne : name ≠ "movie_id").
    { intros ->. apply elem_of_cons in Hname as [?|Hname]; [done|].
      by apply list_elem_of_singleton in Hname. }
    destruct (Hzero name Hname (Hin_df _ Hne Hin)) as (s0 & _ & Hout).
    apply (getitem_dedup_step_Forall _ _ _ _ Hout).
    apply fillna_zero_numbers. }
  assert (Hy : step_release_year (dedup_step out) = Some (dedup_step out)).
  { apply step_release_year_settled. intros Hin.
    destruct (Hyear (Hin_df "release_year" ltac:(done) Hin)) as (s0 & _ & Hout & Hint).
    apply (getitem_dedup_step_Forall _ _ _ _ Hout).
    apply Forall_forall. intros c Hc.
    rewrite forallb_forall in Hint.
    assert (Hc' : int_or_null c = true)
      by (by apply Hint, list_elem_of_In).
    apply list_elem_of_fmap in Hc as (c0 & -> & _).
    split; [|done].
    destruct (to_numeric_cases to_numeric_str c0) as [->|[q ->]];
      [by left | by right; exists q]. }
  assert (Hg : step_genres (dedup_step out) = Some (dedup_step out)).
  { apply step_genres_settled. intros Hin.
    destruct (Hgen (Hin_df "genres" ltac:(done) Hin)) as (s0 & _ & Hout).
    apply (getitem_dedup_step_Forall _ _ _ _ Hout).
    apply Forall_fmap, Forall_forall. intros c _. simpl. eexists.
    split; [done|]. apply TextFacts.genres_lambda_idem. }
  assert (Hid : step_movie_id (dedup_step out) = dedup_step out).
  { unfold step_movie_id. rewrite bool_decide_eq_false_2; [done|].
    intros Hno. apply Hno. rewrite Kd. apply Hcols. by right. }
  unfold Normalizer.validate_and_clean. cbv zeta.
  rewrite (Hm "rating") by left. simpl.
  rewrite (Hz "vote_count") by left. simpl.
  rewrite (Hm "runtime") by (right; left). simpl.
  rewrite Hy. simpl.
  rewrite (Hz "popularity") by (right; left). simpl.
  by rewrite Hid.
Qed.

End WithPandas.

Lemma renormalise_only_dedups_witness :
  Sample.validate_and_clean Sample.gaps_clean
  = Some (dedup_step Sample.gaps_clean).
Proof.
  apply (renormalise_only_dedups Sample.to_numeric_str Sample.str_of_num
           Sample.gaps).
  apply (bool_decide_unpack _). by vm_compute.
Defined.

(** Two rows with one title whose years do not parse survive the first
    pass, since their raw years differ, and collapse in the second. *)
Example second_pass_drops_a_row :
  ∃ out,
    Sample.validate_and_clean
      (mkDF 2 [ ("title", [CStr "Heat"; CStr "Heat"]);
                ("release_year", [CStr "n/a"; CStr "unknown"]) ]) = Some out
    ∧ df_len out = 2
    ∧ df_len (dedup_step out) = 1.
Proof. eexists. split; [by vm_compute|]. split; by vm_compute. Qed.

End Stability.
